(** * LSB image steganography: the codec of [steganography.py]

    A shallow embedding of [ImageSteganography] (module
    [challenges/01_steganography/steganography.py]) and the proofs of its
    codec properties.

    Conventions of the embedding:
    - a Python [int] holding a colour value is a [Z]; [%] with the positive
      divisor 2 is [Z.modulo];
    - a character is its code point ([ord]), an [N]; a text is the list of
      its code points;
    - the strings of binary digits built by [format] and read by [int] are
      Rocq strings;
    - a pixel is the list of its channel values, a pixel sequence a list of
      pixels, updated by index with stdpp's list lookup and insert;
    - images live in a heap of image objects addressed by handles, so that
      [image.copy()] and [putpixel] are the mutations the source performs;
    - exceptions are values of [exn]; fallible code returns [result]. *)

From Stdlib Require Import ZArith NArith Ascii String.
From stdpp Require Import base numbers list strings.

Open Scope Z_scope.

(** ** Exceptions *)

(** The messages with which the source raises [SteganographyError], named
    after the place that raises them. *)
Inductive steg_message : Type :=
  | CannotEncodeEmptyText      (* encode: "Cannot encode empty text" *)
  | ImageTooSmall              (* validate_image_capacity: "Image too small! ..." *)
  | ImageTooSmallToEncode      (* modify_pixels_for_encoding, on StopIteration *)
  | UnexpectedEndOfImageData   (* decode, on StopIteration *)
  | InvalidEncodedData.        (* decode, on ValueError *)

(** [NoSuchObject] is no Python exception: it is what the model answers at
    a handle that names no object, which a Python program cannot hold. *)
Inductive exn : Type :=
  | SteganographyError (m : steg_message)
  | IndexError
  | TypeError
  | NoSuchObject.

Inductive result (A : Type) : Type :=
  | Ok (a : A)
  | Raise (e : exn).
Arguments Ok {A} a.
Arguments Raise {A} e.

#[global] Instance result_ret : MRet result := λ A a, Ok a.

#[global] Instance result_bind : MBind result := λ A B k r,
  match r with
  | Ok a => k a
  | Raise e => Raise e
  end.

#[global] Instance result_fmap : FMap result := λ A B f r,
  match r with
  | Ok a => Ok (f a)
  | Raise e => Raise e
  end.

(** [l[i]] of Python for a list and an index that is not negative. *)
Definition index {A} (l : list A) (i : nat) : result A :=
  match l !! i with
  | Some a => Ok a
  | None => Raise IndexError
  end.

(** [l[i] = a] of Python: unlike stdpp's insert it raises out of range. *)
Definition store {A} (l : list A) (i : nat) (a : A) : result (list A) :=
  if decide (i < length l)%nat then Ok (<[i:=a]> l) else Raise IndexError.

(** [l[i:j]] of Python for [0 <= i <= j]. *)
Definition slice {A} (l : list A) (i j : nat) : list A :=
  take (j - i) (drop i l).

(** ** Texts and binary strings *)

Abbreviation char := N (only parsing).
Abbreviation pystr := (list N) (only parsing).

Definition ord (c : char) : N := c.

(** [chr]: a [ValueError] outside the range of code points. *)
Definition chr (n : N) : option char :=
  if (n <=? 1114111)%N then Some n else None.

(** The binary digits of a positive number, most significant first, in front
    of [acc]. *)
Fixpoint pos_digits (p : positive) (acc : string) : string :=
  match p with
  | xH => String "1" acc
  | xO q => pos_digits q (String "0" acc)
  | xI q => pos_digits q (String "1" acc)
  end.

Definition bin (n : N) : string :=
  match n with
  | N0 => "0"
  | Npos p => pos_digits p ""
  end.

Fixpoint zeros (k : nat) : string :=
  match k with
  | O => ""
  | S k' => String "0" (zeros k')
  end.

(** [format(n, "08b")]: the binary digits of [n], padded with zeros on the
    left to a width of 8; wider numbers keep all their digits. *)
Definition format_08b (n : N) : string :=
  let digits := bin n in
  (zeros (8 - String.length digits) ++ digits)%string.

Definition bit_value (c : ascii) : option N :=
  if Ascii.eqb c "0" then Some 0%N
  else if Ascii.eqb c "1" then Some 1%N
  else None.

Fixpoint int2_digits (s : string) (acc : N) : option N :=
  match s with
  | EmptyString => Some acc
  | String c s' =>
      match bit_value c with
      | Some d => int2_digits s' (2 * acc + d)%N
      | None => None
      end
  end.

(** [int(s, 2)] on strings of binary digits. [None] is the [ValueError]; the
    model raises it for the empty string and for every string with a
    character other than a binary digit (Python accepts a sign, a prefix,
    blanks and underscores as well, which the codec never produces). *)
Definition int2 (s : string) : option N :=
  match s with
  | EmptyString => None
  | _ => int2_digits s 0%N
  end.

(** ** ImageSteganography: the bit functions *)

Definition BITS_PER_CHAR : nat := 8.

Definition text_to_binary (text : pystr) : list string :=
  map (λ char, format_08b (ord char)) text.

Definition make_even (value : Z) : Z :=
  if decide (value mod 2 ≠ 0) then value - 1 else value.

Definition make_odd (value : Z) : Z :=
  if decide (value mod 2 = 0) then
    (if decide (value < 255) then value + 1 else value - 1)
  else value.

Definition encode_bit_in_value (value : Z) (bit : ascii) : Z :=
  if Ascii.eqb bit "0" then make_even value else make_odd value.

Definition extract_bit_from_value (value : Z) : string :=
  if decide (value mod 2 ≠ 0) then "1"%string else "0"%string.

(** ** The generator [modify_pixels_for_encoding] *)

Abbreviation Pixel := (list Z) (only parsing).

(** [for bit_index in range(BITS_PER_CHAR)]: the loop over the first eight
    colour values, with the indexing errors of Python. *)
Fixpoint encode_bits (bit_indices : list nat) (binary_char : string)
    (color_values : list Z) : result (list Z) :=
  match bit_indices with
  | [] => Ok color_values
  | bit_index :: rest =>
      match String.get bit_index binary_char with
      | Some bit =>
          value ← index color_values bit_index;
          color_values ← store color_values bit_index
                           (encode_bit_in_value value bit);
          encode_bits rest binary_char color_values
      | None => Raise IndexError
      end
  end.

(** The termination flag in the ninth value. *)
Definition set_flag (char_index num_chars : nat) (color_values : list Z)
    : result (list Z) :=
  let is_last_char :=
    bool_decide (Z.of_nat char_index = Z.of_nat num_chars - 1) in
  value ← index color_values 8;
  if is_last_char
  then store color_values 8 (make_odd value)
  else store color_values 8 (make_even value).

(** One run of a generator: the pixels it yields, in order, and the
    exception that ends it, if one does. *)
Record generated : Type := Generated {
  yielded : list Pixel;
  raised : option exn
}.

Definition yield_first (ps : list Pixel) (g : generated) : generated :=
  {| yielded := ps ++ yielded g; raised := raised g |}.

Definition gen_raise (e : exn) : generated :=
  {| yielded := []; raised := Some e |}.

(** The loop [for char_index, binary_char in enumerate(binary_chars)], the
    iterator being the list of the pixels not yet consumed. *)
Fixpoint encoding_loop (binary_chars : list string) (char_index num_chars : nat)
    (pixel_iterator : list Pixel) : generated :=
  match binary_chars with
  | [] => {| yielded := []; raised := None |}
  | binary_char :: binary_chars' =>
      match pixel_iterator with
      | pixel1 :: pixel2 :: pixel3 :: pixel_iterator' =>
          let color_values := take 3 pixel1 ++ take 3 pixel2 ++ take 3 pixel3 in
          match
            color_values ← encode_bits (seq 0 BITS_PER_CHAR) binary_char color_values;
            set_flag char_index num_chars color_values
          with
          | Ok color_values =>
              yield_first
                [slice color_values 0 3; slice color_values 3 6;
                 slice color_values 6 9]
                (encoding_loop binary_chars' (S char_index) num_chars
                   pixel_iterator')
          | Raise e => gen_raise e
          end
      | _ => gen_raise (SteganographyError ImageTooSmallToEncode)
      end
  end.

Definition modify_pixels_for_encoding (pixels : list Pixel) (text : pystr)
    : generated :=
  let binary_chars := text_to_binary text in
  let num_chars := length binary_chars in
  encoding_loop binary_chars 0 num_chars pixels.

(** ** Images and the heap of image objects *)

(** An image object of the imaging library: its [size] (width, height), the
    number of bands of its mode, and its pixels in row-major order. *)
Record Image : Type := mkImage {
  size : nat * nat;
  bands : nat;
  data : list Pixel
}.

Abbreviation handle := nat (only parsing).
Abbreviation heap := (list Image) (only parsing).

(** Code that runs on the heap and may raise: the heap is kept when an
    exception leaves the code, as the objects of Python are. *)
Definition M (A : Type) : Type := heap → result A * heap.

#[global] Instance M_ret : MRet M := λ A a σ, (Ok a, σ).

#[global] Instance M_bind : MBind M := λ A B k m σ,
  match m σ with
  | (Ok a, σ') => k a σ'
  | (Raise e, σ') => (Raise e, σ')
  end.

Definition raise {A} (e : exn) : M A := λ σ, (Raise e, σ).

Definition lift {A} (r : result A) : M A := λ σ, (r, σ).

Definition get_image (h : handle) : M Image := λ σ,
  match σ !! h with
  | Some img => (Ok img, σ)
  | None => (Raise NoSuchObject, σ)
  end.

Definition set_image (h : handle) (img : Image) : M () := λ σ,
  (Ok (), <[h:=img]> σ).

Definition alloc (img : Image) : M handle := λ σ,
  (Ok (length σ), σ ++ [img]).

(** [image.copy()] *)
Definition copy (image : handle) : M handle :=
  img ← get_image image; alloc img.

(** [list(image.getdata())]: a list of its own, not a view of the image.
    The pixels are tuples, as the library gives them for an image of two
    bands or more; for an image of one band it gives numbers, which a list
    of tuples does not represent. *)
Definition getdata (image : handle) : M (list Pixel) :=
  img ← get_image image; mret (data img).

Definition clip8 (v : Z) : Z :=
  if decide (v < 0) then 0 else if decide (255 < v) then 255 else v.

(** The imaging library is Pillow ([PIL.Image]); it is no part of the
    repository, and what the codec uses of it is modelled here.

    The ink the library makes of a colour tuple for an image of three bands
    or more (its [getink]): the three values, clipped to a byte,
    and for a further band the fourth value of the tuple, 255 when the tuple
    has none. The library has modes of up to four bands; a mode of more
    bands is given the same value in each further band. *)
Definition getink (nbands : nat) (color : Pixel) : result Pixel :=
  if decide (3 ≤ nbands)%nat then
    match color with
    | [r; g; b] =>
        Ok ([clip8 r; clip8 g; clip8 b] ++ replicate (nbands - 3) 255)
    | [r; g; b; a] =>
        Ok ([clip8 r; clip8 g; clip8 b] ++ replicate (nbands - 3) (clip8 a))
    | _ => Raise TypeError
    end
  else Raise TypeError.

(** [image.putpixel((x, y), value)] of the imaging library: the position is
    checked first, then the ink replaces the pixel. *)
Definition putpixel (image : handle) (xy : nat * nat) (value : Pixel) : M () :=
  img ← get_image image;
  let '(x, y) := xy in
  let '(xsize, ysize) := size img in
  if decide (x < xsize ∧ y < ysize)%nat then
    ink ← lift (getink (bands img) value);
    set_image image
      {| size := size img; bands := bands img;
         data := <[(y * xsize + x)%nat := ink]> (data img) |}
  else raise IndexError.

(** ** Capacity, encode and decode *)

Definition validate_image_capacity (image : handle) (text : pystr) : M () :=
  img ← get_image image;
  let total_pixels := (fst (size img) * snd (size img))%nat in
  let pixels_needed := (length text * 3)%nat in
  if decide (total_pixels < pixels_needed)%nat
  then raise (SteganographyError ImageTooSmall)
  else mret ().

(** The loop [for pixel in modified_pixels] of [encode], over the pixels the
    generator yields. *)
Fixpoint write_pixels (encoded_image : handle) (width : nat)
    (modified_pixels : list Pixel) (x y : nat) : M () :=
  match modified_pixels with
  | [] => mret ()
  | pixel :: modified_pixels' =>
      putpixel encoded_image (x, y) pixel;;
      let x := (x + 1)%nat in
      if decide (width ≤ x)%nat
      then write_pixels encoded_image width modified_pixels' 0%nat (y + 1)%nat
      else write_pixels encoded_image width modified_pixels' x y
  end.

(** [encode], from the opened [image] to the [encoded_image] that is saved.
    Opening and saving the files are the imaging library's. The generator is
    consumed by the loop: the pixels it yields are written, and an exception
    that ends it leaves the loop after them. *)
Definition encode (image : handle) (text : pystr) : M handle :=
  if decide (text = []) then raise (SteganographyError CannotEncodeEmptyText)
  else
    validate_image_capacity image text;;
    encoded_image ← copy image;
    pixels ← getdata encoded_image;
    let modified_pixels := modify_pixels_for_encoding pixels text in
    img ← get_image encoded_image;
    let width := fst (size img) in
    write_pixels encoded_image width (yielded modified_pixels) 0%nat 0%nat;;
    match raised modified_pixels with
    | Some e => raise e
    | None => mret encoded_image
    end.

(** The loop [while True] of [decode]; [ValueError] becomes the
    [SteganographyError] of the handler. *)
Fixpoint decoding_loop (pixel_iterator : list Pixel) (decoded_text : pystr)
    : result pystr :=
  match pixel_iterator with
  | pixel1 :: pixel2 :: pixel3 :: pixel_iterator' =>
      let color_values := take 3 pixel1 ++ take 3 pixel2 ++ take 3 pixel3 in
      bits ← mapM (λ i, extract_bit_from_value <$> index color_values i)
                (seq 0 BITS_PER_CHAR);
      let binary_string := String.concat "" bits in
      match int2 binary_string ≫= chr with
      | Some c =>
          let decoded_text := decoded_text ++ [c] in
          flag ← index color_values 8;
          if decide (flag mod 2 ≠ 0) then Ok decoded_text
          else decoding_loop pixel_iterator' decoded_text
      | None => Raise (SteganographyError InvalidEncodedData)
      end
  | _ => Raise (SteganographyError UnexpectedEndOfImageData)
  end.

Definition decode (image : handle) : M pystr :=
  pixels ← getdata image;
  lift (decoding_loop pixels []).

(** ** Strings of binary digits *)

(** A string of binary digits. *)
Fixpoint binary (s : string) : Prop :=
  match s with
  | EmptyString => True
  | String c s' => (c = "0"%char ∨ c = "1"%char) ∧ binary s'
  end.

(** The number made of the at most eight leading binary digits of [c]. *)
Definition leading8 (c : N) : N := N.shiftr c (N.size c - 8).

(** ** What the generator yields, in closed form *)

Definition flag_value (is_last_char : bool) (value : Z) : Z :=
  if is_last_char then make_odd value else make_even value.

Definition bit_at (binary_char : string) (k : nat) : ascii :=
  default "0"%char (String.get k binary_char).

Definition channel (pixel : Pixel) (k : nat) : Z := default 0 (pixel !! k).

(** The three pixels written for one character: the bits of [binary_char]
    in the first eight values, the termination flag in the ninth. *)
Definition encoded_group (binary_char : string) (is_last_char : bool)
    (pixel1 pixel2 pixel3 : Pixel) : list Pixel :=
  [ [ encode_bit_in_value (channel pixel1 0) (bit_at binary_char 0);
      encode_bit_in_value (channel pixel1 1) (bit_at binary_char 1);
      encode_bit_in_value (channel pixel1 2) (bit_at binary_char 2) ];
    [ encode_bit_in_value (channel pixel2 0) (bit_at binary_char 3);
      encode_bit_in_value (channel pixel2 1) (bit_at binary_char 4);
      encode_bit_in_value (channel pixel2 2) (bit_at binary_char 5) ];
    [ encode_bit_in_value (channel pixel3 0) (bit_at binary_char 6);
      encode_bit_in_value (channel pixel3 1) (bit_at binary_char 7);
      flag_value is_last_char (channel pixel3 2) ] ].

Fixpoint encoded_pixels (binary_chars : list string) (char_index num_chars : nat)
    (pixels : list Pixel) : list Pixel :=
  match binary_chars, pixels with
  | binary_char :: binary_chars', pixel1 :: pixel2 :: pixel3 :: pixels' =>
      encoded_group binary_char
        (bool_decide (Z.of_nat char_index = Z.of_nat num_chars - 1))
        pixel1 pixel2 pixel3
      ++ encoded_pixels binary_chars' (S char_index) num_chars pixels'
  | _, _ => []
  end.

(** ** Well-formed images *)

(** A pixel of an image of [nbands] bands: [nbands] values, each a byte. *)
Definition pixel_ok (nbands : nat) (pixel : Pixel) : Prop :=
  length pixel = nbands ∧ Forall (λ v, 0 ≤ v ≤ 255) pixel.

(** The images the codec is given: three bands or more, as many pixels as
    the size says, every pixel of the image's bands. *)
Definition wf_image (img : Image) : Prop :=
  length (data img) = (fst (size img) * snd (size img))%nat
  ∧ (3 ≤ bands img)%nat
  ∧ Forall (pixel_ok (bands img)) (data img).

(** The pixel stored for a yielded 3-tuple whose values are bytes. *)
Definition stored_pixel (nbands : nat) (value : Pixel) : Pixel :=
  value ++ replicate (nbands - 3) 255.

(** The image [encode] builds from [img] and [text] when it succeeds. *)
Definition encoded_image_of (img : Image) (text : pystr) : Image :=
  {| size := size img; bands := bands img;
     data := (stored_pixel (bands img)
                <$> encoded_pixels (text_to_binary text) 0 (length text) (data img))
             ++ drop (3 * length text) (data img) |}.

(** ** The decoder in the words of the specification *)

(** The least significant bit of a colour value. *)
Definition lsb (value : Z) : N := Z.to_N (value mod 2).

Definition digit (b : N) : ascii := if (b =? 0)%N then "0"%char else "1"%char.

(** The number whose binary digits, most significant first, are [bits]. *)
Definition msb_first (bits : list N) : N :=
  fold_left (λ a b, 2 * a + b)%N bits 0%N.

(** The character of a group: the least significant bits of its first
    eight values, most significant bit first. *)
Definition group_char (pixel1 pixel2 pixel3 : Pixel) : N :=
  msb_first (lsb <$> take 8 (take 3 pixel1 ++ take 3 pixel2 ++ take 3 pixel3)).

(** The ninth value of a group: the third channel of its third pixel. *)
Definition group_flag (pixel3 : Pixel) : Z := channel pixel3 2.

(** The decoder of the specification: read groups of three pixels, one
    character from each, stop at the first group with an odd ninth value and
    ignore what follows; [None] when the pixels run out before that. *)
Fixpoint spec_decode (pixels : list Pixel) : option pystr :=
  match pixels with
  | pixel1 :: pixel2 :: pixel3 :: pixels' =>
      if decide (group_flag pixel3 mod 2 ≠ 0)
      then Some [group_char pixel1 pixel2 pixel3]
      else (group_char pixel1 pixel2 pixel3 ::.) <$> spec_decode pixels'
  | _ => None
  end.

(** No complete group of [pixels] carries an odd ninth value. *)
Definition no_termination_flag (pixels : list Pixel) : Prop :=
  ∀ i pixel3, pixels !! (3 * i + 2)%nat = Some pixel3 →
              group_flag pixel3 mod 2 = 0.

(** ** Example images *)

(** Three pixels of three bands, in one row: room for one character. *)
Definition rgb_image : Image :=
  {| size := (3%nat, 1%nat); bands := 3;
     data := [[10; 20; 30]; [40; 50; 60]; [70; 80; 90]] |}.

(** A carrier one pixel short of a character. *)
Definition two_pixel_image : Image :=
  {| size := (2%nat, 1%nat); bands := 3;
     data := [[10; 20; 30]; [40; 50; 60]] |}.

(** The carrier [rgb_image] with a fourth band. *)
Definition rgba_image : Image :=
  {| size := (3%nat, 1%nat); bands := 4;
     data := [[10; 20; 30; 7]; [40; 50; 60; 7]; [70; 80; 90; 7]] |}.

(** Two rows of three pixels: room for two characters. *)
Definition rgb_image_2x3 : Image :=
  {| size := (3%nat, 2%nat); bands := 3;
     data := [[10; 20; 30]; [40; 50; 60]; [70; 80; 90];
              [255; 0; 255]; [0; 255; 0]; [1; 2; 254]] |}.

(** Four pixels in a row, none with an odd third channel. *)
Definition unmarked_image : Image :=
  {| size := (4%nat, 1%nat); bands := 3;
     data := [[10; 20; 30]; [40; 50; 60]; [70; 80; 90]; [1; 1; 1]] |}.

(** A group that spells "A" with its termination flag, and a pixel after it. *)
Definition image_A : Image :=
  {| size := (4%nat, 1%nat); bands := 3;
     data := [[10; 21; 30]; [40; 50; 60]; [70; 81; 91]; [1; 1; 1]] |}.

(** ** One turn of the loop of [decode] *)

(** What one turn of the loop of [decode] makes of the nine values of a
    group: the character and whether the flag says to stop, or the
    exception raised. *)
Definition group_step (color_values : list Z) : result (N * bool) :=
  bits ← mapM (λ i, extract_bit_from_value <$> index color_values i)
            (seq 0 BITS_PER_CHAR);
  match int2 (String.concat "" bits) ≫= chr with
  | Some c =>
      flag ← index color_values 8;
      Ok (c, bool_decide (flag mod 2 ≠ 0))
  | None => Raise (SteganographyError InvalidEncodedData)
  end.

(** ** The command line: [handle_encode] of [main.py] *)

(** [str.isspace] on one character: the white space of Unicode. *)
Definition isspace (c : N) : bool :=
  ((9 <=? c) && (c <=? 13) || (28 <=? c) && (c <=? 32)
   || (c =? 133) || (c =? 160) || (c =? 5760)
   || (8192 <=? c) && (c <=? 8202)
   || (c =? 8232) || (c =? 8233) || (c =? 8239) || (c =? 8287)
   || (c =? 12288))%N.

Fixpoint lstrip (text : pystr) : pystr :=
  match text with
  | [] => []
  | c :: text' => if isspace c then lstrip text' else text
  end.

(** [text.strip()] *)
Definition strip (text : pystr) : pystr :=
  reverse (lstrip (reverse (lstrip text))).

(** [handle_encode], from the opened image: the exit code and the heap it
    leaves. Every exception of the codec is caught and gives the exit code
    1; what is printed is left out. *)
Definition handle_encode (image : handle) (text : pystr)
    : heap → Z * heap := λ σ,
  if decide (strip text = []) then (1, σ)
  else
    match encode image text σ with
    | (Ok _, σ') => (0, σ')
    | (Raise _, σ') => (1, σ')
    end.

(** An image of two bands (grey and alpha): its pixels have two values. *)
Definition la_image : Image :=
  {| size := (3%nat, 1%nat); bands := 2;
     data := [[10; 255]; [20; 255]; [30; 255]] |}.

(** The bits of [image_A] under other upper bits, with a fourth channel. *)
Definition image_A_loud : Image :=
  {| size := (4%nat, 1%nat); bands := 4;
     data := [[200; 3; 128; 0]; [0; 2; 254; 9]; [100; 255; 1; 77];
              [7; 5; 3; 1]] |}.

(** Three rows of three pixels: room for three characters. *)
Definition rgb_image_3x3 : Image :=
  {| size := (3%nat, 3%nat); bands := 3;
     data := [[10; 20; 30]; [40; 50; 60]; [70; 80; 90];
              [255; 0; 255]; [0; 255; 0]; [1; 2; 254];
              [9; 8; 7]; [6; 5; 4]; [3; 2; 1]] |}.

(** The first group of [image_A] alone. *)
Definition image_A_head : Image :=
  {| size := (3%nat, 1%nat); bands := 3;
     data := [[10; 21; 30]; [40; 50; 60]; [70; 81; 91]] |}.

(** * Properties *)

(** ** The bit functions *)

Section bit_functions.
Implicit Types v : Z.

Lemma make_even_even v : make_even v mod 2 = 0.
Proof.
  unfold make_even. case_decide as Hv; [|by destruct (decide (v mod 2 = 0))].
  rewrite Zminus_mod. pose proof (Z.mod_pos_bound v 2 eq_refl).
  replace (v mod 2) with 1 by lia. done.
Qed.

Lemma make_odd_odd v : make_odd v mod 2 = 1.
Proof.
  unfold make_odd. pose proof (Z.mod_pos_bound v 2 eq_refl).
  case_decide as Hv; [|lia].
  case_decide.
  - rewrite Zplus_mod, Hv. done.
  - rewrite Zminus_mod, Hv. done.
Qed.

Lemma make_even_idempotent v : make_even (make_even v) = make_even v.
Proof.
  unfold make_even at 1. rewrite make_even_even. by case_decide.
Qed.

Lemma make_odd_idempotent v : make_odd (make_odd v) = make_odd v.
Proof.
  unfold make_odd at 1. rewrite make_odd_odd. by case_decide.
Qed.

Lemma make_even_range v : 0 ≤ v ≤ 255 → 0 ≤ make_even v ≤ 255.
Proof.
  intros Hv. unfold make_even. case_decide as Hodd; [|done].
  assert (v ≠ 0) by (intros ->; by apply Hodd). lia.
Qed.

Lemma make_odd_range v : 0 ≤ v ≤ 255 → 0 ≤ make_odd v ≤ 255.
Proof.
  intros Hv. unfold make_odd. repeat case_decide; lia.
Qed.

Lemma make_even_near v : Z.abs (make_even v - v) ≤ 1.
Proof. unfold make_even. case_decide; lia. Qed.

Lemma make_odd_near v : Z.abs (make_odd v - v) ≤ 1.
Proof. unfold make_odd. repeat case_decide; lia. Qed.

Lemma extract_bit_even v : v mod 2 = 0 → extract_bit_from_value v = "0"%string.
Proof. intros Hv. unfold extract_bit_from_value. by case_decide. Qed.

Lemma extract_bit_odd v : v mod 2 = 1 → extract_bit_from_value v = "1"%string.
Proof. intros Hv. unfold extract_bit_from_value. case_decide; [done|lia]. Qed.

Lemma encode_bit_in_value_range v bit :
  0 ≤ v ≤ 255 → 0 ≤ encode_bit_in_value v bit ≤ 255.
Proof.
  intros. unfold encode_bit_in_value.
  destruct (Ascii.eqb bit "0"); auto using make_even_range, make_odd_range.
Qed.


(** The bit read back is the bit written, for a binary digit. *)
Lemma extract_encode_bit v bit :
  bit = "0"%char ∨ bit = "1"%char →
  extract_bit_from_value (encode_bit_in_value v bit) = String bit "".
Proof.
  intros [-> | ->]; unfold encode_bit_in_value; simpl.
  - apply extract_bit_even, make_even_even.
  - apply extract_bit_odd, make_odd_odd.
Qed.
End bit_functions.

(** ** Binary strings *)

Section binary_strings.
Implicit Types (s acc : string) (p : positive) (n : N).

Lemma string_app_empty s : ("" ++ s)%string = s.
Proof. done. Qed.

Lemma string_app_String c s1 s2 :
  (String c s1 ++ s2)%string = String c (s1 ++ s2).
Proof. done. Qed.

Local Ltac string_simpl :=
  rewrite ?string_app_empty, ?string_app_String; simpl.

Lemma string_app_assoc s1 s2 s3 :
  (s1 ++ s2 ++ s3)%string = ((s1 ++ s2) ++ s3)%string.
Proof. induction s1; string_simpl; congruence. Qed.

Lemma string_length_app s1 s2 :
  String.length (s1 ++ s2) = (String.length s1 + String.length s2)%nat.
Proof. induction s1 as [|c s1 IH]; string_simpl; [done|by rewrite IH]. Qed.

Lemma substring_0_app k s1 s2 :
  (k ≤ String.length s1)%nat → substring 0 k (s1 ++ s2) = substring 0 k s1.
Proof.
  revert k. induction s1 as [|c s1 IH]; intros [|k] Hk; string_simpl;
    simpl in Hk; try done; try lia.
  - by destruct s2.
  - rewrite IH; [done|lia].
Qed.

Lemma substring_0_all k s : (String.length s ≤ k)%nat → substring 0 k s = s.
Proof.
  revert k. induction s as [|c s IH]; intros [|k] Hk; simpl in *;
    try done; try lia.
  rewrite IH; [done|lia].
Qed.

Lemma substring_0_length k s :
  (k ≤ String.length s)%nat → String.length (substring 0 k s) = k.
Proof.
  revert k. induction s as [|c s IH]; intros [|k] Hk; simpl in *;
    try done; try lia.
  rewrite IH; [done|lia].
Qed.

Lemma binary_app s1 s2 : binary s1 → binary s2 → binary (s1 ++ s2).
Proof. induction s1; string_simpl; [done|]. intros [??] ?. auto. Qed.

Lemma binary_substring k s : binary s → binary (substring 0 k s).
Proof.
  revert k. induction s as [|c s IH]; intros [|k]; simpl; try done.
  intros [??]. auto.
Qed.

Lemma binary_zeros k : binary (zeros k).
Proof. induction k; simpl; auto. Qed.

Lemma zeros_length k : String.length (zeros k) = k.
Proof. induction k; simpl; auto. Qed.

Lemma pos_digits_app p acc : pos_digits p acc = (pos_digits p "" ++ acc)%string.
Proof.
  revert acc. induction p as [p IH|p IH|]; intros acc; simpl; [| |done].
  - by rewrite (IH (String _ acc)), (IH "1"%string), <-string_app_assoc.
  - by rewrite (IH (String _ acc)), (IH "0"%string), <-string_app_assoc.
Qed.

Lemma pos_digits_length p : String.length (pos_digits p "") = Pos.size_nat p.
Proof.
  induction p as [p IH|p IH|]; simpl; [| |done];
    rewrite pos_digits_app, string_length_app, IH; simpl; lia.
Qed.

Lemma binary_pos_digits p acc : binary acc → binary (pos_digits p acc).
Proof.
  revert acc. induction p as [p IH|p IH|]; intros acc Hacc; simpl; auto.
  - apply IH. simpl. auto.
  - apply IH. simpl. auto.
Qed.

Lemma binary_bin n : binary (bin n).
Proof. destruct n; simpl; [auto|by apply binary_pos_digits]. Qed.

Lemma format_08b_binary n : binary (format_08b n).
Proof. apply binary_app; [apply binary_zeros|apply binary_bin]. Qed.

Lemma format_08b_length n : (8 ≤ String.length (format_08b n))%nat.
Proof.
  unfold format_08b. simpl. rewrite string_length_app, zeros_length. lia.
Qed.

Lemma int2_digits_app s1 s2 (a : N) :
  int2_digits (s1 ++ s2) a = int2_digits s1 a ≫= int2_digits s2.
Proof.
  revert a. induction s1 as [|c s1 IH]; intros a; string_simpl; [done|].
  destruct (bit_value c); [apply IH|done].
Qed.

Lemma int2_digits_zeros k : int2_digits (zeros k) 0 = Some 0%N.
Proof. induction k; simpl; [done|apply IHk]. Qed.

Lemma int2_digits_pos p : int2_digits (pos_digits p "") 0 = Some (Npos p).
Proof.
  induction p as [p IH|p IH|]; simpl; [| |done];
    by rewrite pos_digits_app, int2_digits_app, IH.
Qed.

Lemma int2_digits_bin n : int2_digits (bin n) 0 = Some n.
Proof. destruct n; [done|apply int2_digits_pos]. Qed.

(** A binary string of [k] digits denotes a number below [2^k]. *)
Lemma int2_digits_binary s (a : N) :
  binary s →
  ∃ r, int2_digits s a = Some r
       ∧ (r < (a + 1) * 2 ^ N.of_nat (String.length s))%N.
Proof.
  revert a. induction s as [|c s IH]; intros a Hs.
  - exists a. simpl. split; [done|lia].
  - destruct Hs as [Hc Hs]. cbn [int2_digits String.length].
    rewrite Nat2N.inj_succ, N.pow_succ_r'.
    destruct Hc as [-> | ->].
    + change (bit_value "0") with (Some 0%N). cbv iota.
      destruct (IH (2 * a + 0)%N Hs) as (r & -> & Hr).
      exists r. split; [done|nia].
    + change (bit_value "1") with (Some 1%N). cbv iota.
      destruct (IH (2 * a + 1)%N Hs) as (r & -> & Hr).
      exists r. split; [done|nia].
Qed.

Lemma int2_digits_int2 s : s ≠ ""%string → int2 s = int2_digits s 0.
Proof. by destruct s. Qed.

Lemma int2_digits_prefix_step k (q b : positive) (c : ascii) :
  (q~0 = b ∨ q~1 = b)%positive →
  ((k ≤ Pos.size_nat q)%nat →
   int2_digits (substring 0 k (pos_digits q "")) 0
   = Some (N.shiftr (Npos q) (N.of_nat (Pos.size_nat q - k)))) →
  int2_digits (pos_digits q "" ++ String c "") 0 = Some (Npos b) →
  (k ≤ S (Pos.size_nat q))%nat →
  int2_digits (substring 0 k (pos_digits q "" ++ String c "")) 0
  = Some (N.shiftr (Npos b) (N.of_nat (S (Pos.size_nat q) - k))).
Proof.
  intros Hb IH Hall Hk.
  destruct (decide (k ≤ Pos.size_nat q)%nat) as [Hle|Hgt].
  - rewrite substring_0_app by (by rewrite pos_digits_length).
    rewrite IH by done.
    replace (S (Pos.size_nat q) - k)%nat with (S (Pos.size_nat q - k)) by lia.
    rewrite Nat2N.inj_succ, <-N.add_1_l, <-N.shiftr_shiftr.
    by destruct Hb as [<- | <-].
  - replace (S (Pos.size_nat q) - k)%nat with 0%nat by lia.
    rewrite substring_0_all; [done|].
    rewrite string_length_app, pos_digits_length. simpl. lia.
Qed.

(** The first [k] digits of a number are the number shifted right by the
    number of digits left out. *)
Lemma int2_digits_prefix p k :
  (k ≤ Pos.size_nat p)%nat →
  int2_digits (substring 0 k (pos_digits p "")) 0
  = Some (N.shiftr (Npos p) (N.of_nat (Pos.size_nat p - k))).
Proof.
  induction p as [p IH|p IH|]; intros Hk.
  - simpl pos_digits. rewrite pos_digits_app. simpl Pos.size_nat.
    apply int2_digits_prefix_step; [by right|done| |done].
    rewrite <-pos_digits_app. apply (int2_digits_pos p~1).
  - simpl pos_digits. rewrite pos_digits_app. simpl Pos.size_nat.
    apply int2_digits_prefix_step; [by left|done| |done].
    rewrite <-pos_digits_app. apply (int2_digits_pos p~0).
  - simpl in Hk. destruct k as [|[|k]]; [done|done|lia].
Qed.
End binary_strings.

Section leading_digits.
Implicit Types (c : N) (p : positive).

Lemma size_nat_N p : N.of_nat (Pos.size_nat p) = N.size (Npos p).
Proof.
  induction p as [p IH|p IH|]; [| |done];
    simpl Pos.size_nat; rewrite Nat2N.inj_succ, IH; simpl; lia.
Qed.

Lemma int2_leading8 c : int2 (substring 0 8 (format_08b c)) = Some (leading8 c).
Proof.
  destruct c as [|p]; [done|].
  unfold format_08b, leading8. cbv zeta. simpl bin.
  rewrite pos_digits_length, <-size_nat_N.
  destruct (decide (Pos.size_nat p ≤ 8)%nat) as [Hle|Hgt].
  - replace (N.of_nat (Pos.size_nat p) - 8)%N with 0%N by lia.
    rewrite substring_0_all
      by (rewrite string_length_app, zeros_length, pos_digits_length; lia).
    rewrite int2_digits_int2.
    + by rewrite int2_digits_app, int2_digits_zeros; simpl;
        rewrite int2_digits_pos.
    + intros Hnil. apply (f_equal String.length) in Hnil.
      rewrite string_length_app, zeros_length, pos_digits_length in Hnil.
      simpl in Hnil. lia.
  - replace (8 - Pos.size_nat p)%nat with 0%nat by lia.
    rewrite string_app_empty, int2_digits_int2.
    + rewrite int2_digits_prefix by lia. do 2 f_equal. lia.
    + intros Hnil. apply (f_equal String.length) in Hnil.
      rewrite substring_0_length in Hnil; [done|].
      rewrite pos_digits_length. lia.
Qed.

Lemma leading8_bound c : (leading8 c < 256)%N.
Proof.
  pose proof (int2_leading8 c) as Hc.
  rewrite int2_digits_int2 in Hc.
  - destruct (int2_digits_binary (substring 0 8 (format_08b c)) 0)
      as (r & Hr & Hlt).
    { apply binary_substring, format_08b_binary. }
    rewrite substring_0_length in Hlt by apply format_08b_length.
    rewrite Hc in Hr. injection Hr as <-. exact Hlt.
  - intros Hnil. apply (f_equal String.length) in Hnil.
    rewrite substring_0_length in Hnil; [done|apply format_08b_length].
Qed.

Lemma leading8_latin1 c : (c ≤ 255)%N → leading8 c = c.
Proof.
  intros Hc. unfold leading8.
  assert (N.size c ≤ 8)%N as Hsize.
  { apply N.lt_succ_r. apply (N.pow_lt_mono_r_iff 2); [done|].
    pose proof (N.size_le c). change (2 ^ N.succ 8)%N with 512%N. lia. }
  replace (N.size c - 8)%N with 0%N by lia. apply N.shiftr_0_r.
Qed.
End leading_digits.

(** ** The generator *)

Section generator.
Implicit Types (binary_char : string) (pixels : list Pixel).

Lemma string_8_inv binary_char :
  (8 ≤ String.length binary_char)%nat →
  ∃ c0 c1 c2 c3 c4 c5 c6 c7 s,
    binary_char
    = String c0 (String c1 (String c2 (String c3
        (String c4 (String c5 (String c6 (String c7 s))))))).
Proof.
  intros Hlen.
  do 8 (destruct binary_char as [|? binary_char]; [simpl in Hlen; lia|];
        simpl in Hlen; apply le_S_n in Hlen).
  eauto 10.
Qed.

Lemma pixel_3_inv (pixel : Pixel) :
  (3 ≤ length pixel)%nat → ∃ r g b rest, pixel = r :: g :: b :: rest.
Proof.
  intros Hlen.
  do 3 (destruct pixel as [|? pixel]; [simpl in Hlen; lia|];
        simpl in Hlen; apply le_S_n in Hlen).
  eauto.
Qed.

(** One turn of the loop on a full group yields the encoded group and goes
    on with the next character. *)
Lemma encoding_loop_group binary_char binary_chars char_index num_chars
    (pixel1 pixel2 pixel3 : Pixel) pixels :
  (8 ≤ String.length binary_char)%nat →
  (3 ≤ length pixel1)%nat → (3 ≤ length pixel2)%nat →
  (3 ≤ length pixel3)%nat →
  encoding_loop (binary_char :: binary_chars) char_index num_chars
    (pixel1 :: pixel2 :: pixel3 :: pixels)
  = yield_first
      (encoded_group binary_char
         (bool_decide (Z.of_nat char_index = Z.of_nat num_chars - 1))
         pixel1 pixel2 pixel3)
      (encoding_loop binary_chars (S char_index) num_chars pixels).
Proof.
  intros (c0&c1&c2&c3&c4&c5&c6&c7&s&->)%string_8_inv
    (r1&g1&b1&rest1&->)%pixel_3_inv (r2&g2&b2&rest2&->)%pixel_3_inv
    (r3&g3&b3&rest3&->)%pixel_3_inv.
  cbn [encoding_loop]. unfold set_flag.
  by destruct (bool_decide _).
Qed.

Lemma encoding_loop_ok binary_chars char_index num_chars pixels :
  Forall (λ s, 8 ≤ String.length s)%nat binary_chars →
  Forall (λ p : Pixel, 3 ≤ length p)%nat pixels →
  (3 * length binary_chars ≤ length pixels)%nat →
  encoding_loop binary_chars char_index num_chars pixels
  = {| yielded := encoded_pixels binary_chars char_index num_chars pixels;
       raised := None |}.
Proof.
  intros Hbc. revert char_index pixels.
  induction Hbc as [|binary_char binary_chars Hlen _ IH];
    intros char_index pixels Hpx Hcap; [done|].
  destruct pixels as [|pixel1 [|pixel2 [|pixel3 pixels]]];
    simpl in Hcap; try lia.
  apply Forall_cons in Hpx as [H1 Hpx].
  apply Forall_cons in Hpx as [H2 Hpx].
  apply Forall_cons in Hpx as [H3 Hpx].
  rewrite encoding_loop_group by done.
  rewrite IH by (done || lia). done.
Qed.

Lemma encoded_pixels_length binary_chars char_index num_chars pixels :
  (3 * length binary_chars ≤ length pixels)%nat →
  length (encoded_pixels binary_chars char_index num_chars pixels)
  = (3 * length binary_chars)%nat.
Proof.
  revert char_index pixels.
  induction binary_chars as [|binary_char binary_chars IH];
    intros char_index pixels Hcap; [done|].
  destruct pixels as [|pixel1 [|pixel2 [|pixel3 pixels]]];
    simpl in Hcap; try lia.
  cbn [encoded_pixels]. rewrite length_app, IH by lia. simpl. lia.
Qed.

(** The pixels of the group of the character of index [i]. *)
Lemma encoded_pixels_group binary_chars char_index num_chars pixels i
    binary_char :
  binary_chars !! i = Some binary_char →
  (3 * length binary_chars ≤ length pixels)%nat →
  ∃ pixel1 pixel2 pixel3 : Pixel,
    pixels !! (3 * i)%nat = Some pixel1
    ∧ pixels !! (3 * i + 1)%nat = Some pixel2
    ∧ pixels !! (3 * i + 2)%nat = Some pixel3
    ∧ ∀ r, (r < 3)%nat →
        encoded_pixels binary_chars char_index num_chars pixels
          !! (3 * i + r)%nat
        = encoded_group binary_char
            (bool_decide
               (Z.of_nat (char_index + i) = Z.of_nat num_chars - 1))
            pixel1 pixel2 pixel3 !! r.
Proof.
  revert char_index pixels i.
  induction binary_chars as [|bc binary_chars IH];
    intros char_index pixels i Hi Hcap; [done|].
  destruct pixels as [|pixel1 [|pixel2 [|pixel3 pixels]]];
    simpl in Hcap; try lia.
  destruct i as [|i].
  - injection Hi as ->. exists pixel1, pixel2, pixel3.
    repeat split. intros r Hr. cbn [encoded_pixels].
    rewrite Nat.add_0_r. by rewrite lookup_app_l.
  - destruct (IH (S char_index) pixels i Hi) as (q1&q2&q3&H1&H2&H3&Hr);
      [lia|].
    exists q1, q2, q3.
    replace (3 * S i)%nat with (S (S (S (3 * i)))) by lia.
    repeat split; try done.
    intros r Hlt. cbn [encoded_pixels].
    rewrite lookup_app_r by (simpl; lia).
    replace (S (S (S (3 * i))) + r - length _)%nat with (3 * i + r)%nat
      by (simpl; lia).
    rewrite Hr by done. do 3 f_equal. apply bool_decide_ext. lia.
Qed.

(** Whatever the pixels given, the pixels yielded have three channels. *)
Lemma encode_bits_length bit_indices binary_char (color_values cv : list Z) :
  encode_bits bit_indices binary_char color_values = Ok cv →
  length cv = length color_values.
Proof.
  revert color_values.
  induction bit_indices as [|bit_index bit_indices IH];
    intros color_values; cbn [encode_bits].
  - by intros [= ->].
  - destruct (String.get bit_index binary_char); [|done].
    unfold index, store. destruct (color_values !! bit_index); [|done].
    cbn [mbind result_bind]. case_decide; [|done].
    cbn [mbind result_bind]. intros Hrest. apply IH in Hrest.
    by rewrite Hrest, length_insert.
Qed.

Lemma set_flag_length char_index num_chars (color_values cv : list Z) :
  set_flag char_index num_chars color_values = Ok cv →
  length cv = length color_values ∧ (9 ≤ length cv)%nat.
Proof.
  unfold set_flag, index, store.
  destruct (color_values !! 8%nat) eqn:Hflag; [|done].
  apply lookup_lt_Some in Hflag. cbn [mbind result_bind].
  rewrite !decide_True by done.
  destruct (bool_decide _); intros [= <-]; rewrite length_insert; lia.
Qed.

Lemma encoding_loop_three_channels binary_chars char_index num_chars pixels :
  Forall (λ p : Pixel, length p = 3%nat)
    (yielded (encoding_loop binary_chars char_index num_chars pixels)).
Proof.
  revert char_index pixels.
  induction binary_chars as [|bc binary_chars IH];
    intros char_index pixels; [by constructor|].
  destruct pixels as [|pixel1 [|pixel2 [|pixel3 pixels]]];
    try by constructor.
  cbn [encoding_loop].
  destruct (encode_bits _ _ _) as [cv1|] eqn:Hbits; [|by constructor].
  cbn [mbind result_bind].
  destruct (set_flag _ _ _) as [cv|] eqn:Hflag; [|by constructor].
  apply set_flag_length in Hflag as [_ Hlen].
  cbn [yield_first yielded app].
  repeat apply Forall_cons_2; [..|apply IH]; unfold slice;
    rewrite length_take, length_drop; lia.
Qed.

Lemma text_to_binary_length text :
  Forall (λ s, 8 ≤ String.length s)%nat (text_to_binary text).
Proof. apply Forall_map, Forall_forall. intros. apply format_08b_length. Qed.
End generator.

(** ** Decoding what was encoded *)

Section decoding.
Implicit Types (pixels stored rest : list Pixel) (text acc : pystr).

Lemma chr_byte n : (n < 256)%N → chr n = Some n.
Proof.
  intros Hn. unfold chr. destruct (N.leb_spec n 1114111); [done|lia].
Qed.

Lemma flag_value_parity is_last_char v :
  flag_value is_last_char v mod 2 = if is_last_char then 1 else 0.
Proof. destruct is_last_char; [apply make_odd_odd|apply make_even_even]. Qed.

(** The group written for the character [c] is read back as the number of
    the eight leading digits of [c], and ends the message exactly when it
    carries the odd flag. *)
Lemma decoding_loop_group c is_last_char (pixel1 pixel2 pixel3 : Pixel)
    (stored1 stored2 stored3 : Pixel) rest acc :
  [take 3 stored1; take 3 stored2; take 3 stored3]
  = encoded_group (format_08b c) is_last_char pixel1 pixel2 pixel3 →
  decoding_loop (stored1 :: stored2 :: stored3 :: rest) acc
  = if is_last_char then Ok (acc ++ [leading8 c])
    else decoding_loop rest (acc ++ [leading8 c]).
Proof.
  pose proof (int2_leading8 c) as Hint.
  pose proof (format_08b_binary c) as Hbin.
  destruct (string_8_inv _ (format_08b_length c))
    as (c0&c1&c2&c3&c4&c5&c6&c7&s&Hc).
  rewrite Hc in Hint, Hbin |- *.
  destruct Hbin as (?&?&?&?&?&?&?&?&_).
  intros Henc. cbn -[encode_bit_in_value flag_value channel] in Henc.
  injection Henc as Hs1 Hs2 Hs3.
  cbn [decoding_loop]. rewrite Hs1, Hs2, Hs3.
  cbn -[encode_bit_in_value extract_bit_from_value int2 flag_value].
  rewrite !extract_encode_bit by done.
  replace (substring _ _ _) with
    (String c0 (String c1 (String c2 (String c3
       (String c4 (String c5 (String c6 (String c7 ""))))))))
    in Hint by (by destruct s).
  change (int2 _) with
    (int2 (String c0 (String c1 (String c2 (String c3
       (String c4 (String c5 (String c6 (String c7 "")))))))))%string.
  rewrite Hint. cbn [mbind option_bind].
  rewrite chr_byte by apply leading8_bound.
  rewrite flag_value_parity.
  by destruct is_last_char.
Qed.

(** Reading the pixels stored for a whole text gives the text of the
    leading digits, whatever follows them in the image. *)
Lemma decoding_loop_encoded text char_index num_chars pixels stored rest acc :
  text ≠ [] →
  (char_index + length text)%nat = num_chars →
  (3 * length text ≤ length pixels)%nat →
  take 3 <$> stored
  = encoded_pixels (text_to_binary text) char_index num_chars pixels →
  decoding_loop (stored ++ rest) acc = Ok (acc ++ (leading8 <$> text)).
Proof.
  revert char_index pixels stored acc.
  induction text as [|c text IH];
    intros char_index pixels stored acc Hne Hnum Hcap Hst; [done|].
  destruct pixels as [|pixel1 [|pixel2 [|pixel3 pixels]]];
    simpl in Hcap; try lia.
  cbn [text_to_binary map encoded_pixels] in Hst.
  destruct stored as [|stored1 [|stored2 [|stored3 stored]]]; try done.
  rewrite !fmap_cons in Hst. unfold ord in Hst.
  injection Hst as Hs1 Hs2 Hs3 Hst.
  cbn [app]. erewrite decoding_loop_group
    by (rewrite Hs1, Hs2, Hs3; reflexivity).
  destruct text as [|c' text].
  - rewrite bool_decide_eq_true_2; [done|]. simpl in Hnum. lia.
  - rewrite bool_decide_eq_false_2 by (simpl in Hnum; lia).
    rewrite (IH (S char_index) pixels stored); try done.
    + by rewrite <-(assoc_L (++)).
    + simpl in *. lia.
    + simpl in *. lia.
Qed.
End decoding.

(** ** Running the code on the heap *)

Section heap_operations.
Implicit Types (σ : list Image) (img : Image) (h : nat).

Lemma bind_run {A B} (m : M A) (k : A → M B) σ :
  (m ≫= k) σ
  = match m σ with
    | (Ok a, σ') => k a σ'
    | (Raise e, σ') => (Raise e, σ')
    end.
Proof. done. Qed.

Lemma ret_run {A} (a : A) σ : (mret a : M A) σ = (Ok a, σ).
Proof. done. Qed.

Lemma insert_last σ img img' : <[length σ:=img']> (σ ++ [img]) = σ ++ [img'].
Proof.
  pose proof (insert_app_r σ [img] 0 img') as Hins.
  by rewrite Nat.add_0_r in Hins.
Qed.

Lemma get_image_run σ h img :
  σ !! h = Some img → get_image h σ = (Ok img, σ).
Proof. intros Hh. unfold get_image. by rewrite Hh. Qed.

Lemma clip8_byte v : 0 ≤ v ≤ 255 → clip8 v = v.
Proof. intros. unfold clip8. repeat case_decide; lia. Qed.

Lemma getink_bytes nbands (value : Pixel) :
  (3 ≤ nbands)%nat → pixel_ok 3 value →
  getink nbands value = Ok (stored_pixel nbands value).
Proof.
  intros Hb [Hlen Hval]. unfold getink. rewrite decide_True by done.
  destruct value as [|r [|g [|b [|]]]]; try done.
  apply Forall_cons in Hval as [? Hval].
  apply Forall_cons in Hval as [? Hval].
  apply Forall_cons in Hval as [? _].
  by rewrite !clip8_byte.
Qed.

Lemma putpixel_run σ h img x y (value : Pixel) :
  σ !! h = Some img →
  (x < fst (size img))%nat → (y < snd (size img))%nat →
  (3 ≤ bands img)%nat → pixel_ok 3 value →
  putpixel h (x, y) value σ
  = (Ok (),
     <[h := {| size := size img; bands := bands img;
               data := <[(y * fst (size img) + x)%nat
                         := stored_pixel (bands img) value]> (data img) |}]> σ).
Proof.
  intros Hh Hx Hy Hb Hv. unfold putpixel.
  rewrite bind_run, (get_image_run _ _ _ Hh).
  destruct (size img) as [xsize ysize]. simpl in Hx, Hy.
  rewrite decide_True by done.
  by rewrite bind_run; unfold lift; rewrite getink_bytes.
Qed.

(** The loop writes the yielded pixels over the pixels of the image from
    position [(x, y)] on, in row-major order. *)
Lemma write_pixels_run σ h img (modified_pixels : list Pixel) x y k :
  σ !! h = Some img →
  length (data img) = (fst (size img) * snd (size img))%nat →
  (3 ≤ bands img)%nat →
  Forall (pixel_ok 3) modified_pixels →
  (x < fst (size img))%nat →
  k = (y * fst (size img) + x)%nat →
  (k + length modified_pixels ≤ length (data img))%nat →
  write_pixels h (fst (size img)) modified_pixels x y σ
  = (Ok (),
     <[h := {| size := size img; bands := bands img;
               data := take k (data img)
                       ++ (stored_pixel (bands img) <$> modified_pixels)
                       ++ drop (k + length modified_pixels) (data img) |}]> σ).
Proof.
  intros Hh Hlen Hb Hpx. revert σ img x y k Hh Hlen Hb.
  induction Hpx as [|pixel modified_pixels Hpixel _ IH];
    intros σ img x y k Hh Hlen Hb Hx Hk Hcap.
  - simpl. rewrite Nat.add_0_r, take_drop.
    destruct img. simpl. by rewrite list_insert_id.
  - cbn [write_pixels]. simpl in Hcap.
    assert (y < snd (size img))%nat by nia.
    rewrite bind_run, (putpixel_run _ _ img) by done.
    set (img1 := {| size := size img; bands := bands img; data := _ |}).
    set (σ1 := <[h:=img1]> σ).
    assert (σ1 !! h = Some img1) as Hh1.
    { apply list_lookup_insert_eq. by eapply lookup_lt_Some. }
    assert (length (data img1) = length (data img)) as Hlen1.
    { subst img1. simpl. by rewrite length_insert. }
    assert (write_pixels h (fst (size img)) modified_pixels
              (if decide (fst (size img) ≤ x + 1)%nat then 0 else x + 1)%nat
              (if decide (fst (size img) ≤ x + 1)%nat then y + 1 else y)%nat
              σ1
            = (Ok (),
               <[h := {| size := size img; bands := bands img;
                         data := take (S k) (data img1)
                           ++ (stored_pixel (bands img) <$> modified_pixels)
                           ++ drop (S k + length modified_pixels) (data img1)
                      |}]> σ1)) as Hrest.
    { apply (IH σ1 img1); try done.
      - by rewrite Hlen1.
      - simpl. case_decide; lia.
      - simpl. case_decide; nia.
      - rewrite Hlen1. lia. }
    assert (take (S k) (data img1) = take k (data img) ++ [stored_pixel (bands img) pixel])
      as Htake.
    { subst img1. simpl. rewrite <-Hk.
      erewrite take_S_r by (apply list_lookup_insert_eq; lia).
      by rewrite take_insert_ge by lia. }
    assert (drop (S k + length modified_pixels) (data img1)
            = drop (k + S (length modified_pixels)) (data img)) as Hdrop.
    { subst img1. simpl. rewrite <-Hk, drop_insert_lt by lia.
      f_equal. lia. }
    rewrite Htake, Hdrop in Hrest.
    subst σ1. rewrite list_insert_insert_eq in Hrest.
    rewrite <-(assoc_L (++)) in Hrest. rewrite fmap_cons. simpl length.
    destruct (decide (fst (size img) ≤ x + 1)%nat); exact Hrest.
Qed.

End heap_operations.

(** ** Encoding an image *)

Section encoding.
Implicit Types (σ : list Image) (img : Image) (image : nat) (text : pystr).

Lemma channel_byte (pixel : Pixel) k :
  Forall (λ v, 0 ≤ v ≤ 255) pixel → 0 ≤ channel pixel k ≤ 255.
Proof.
  intros Hpx. unfold channel. destruct (pixel !! k) as [v|] eqn:Hk; [|done].
  by eapply (Forall_lookup_1 _ _ _ _ Hpx).
Qed.

Lemma flag_value_range is_last_char v :
  0 ≤ v ≤ 255 → 0 ≤ flag_value is_last_char v ≤ 255.
Proof.
  destruct is_last_char; simpl; auto using make_odd_range, make_even_range.
Qed.

Lemma encoded_pixels_ok nbands binary_chars char_index num_chars
    (pixels : list Pixel) :
  Forall (pixel_ok nbands) pixels →
  Forall (pixel_ok 3)
    (encoded_pixels binary_chars char_index num_chars pixels).
Proof.
  revert char_index pixels.
  induction binary_chars as [|binary_char binary_chars IH];
    intros char_index pixels Hpx; [by constructor|].
  destruct pixels as [|pixel1 [|pixel2 [|pixel3 pixels]]];
    try by constructor.
  apply Forall_cons in Hpx as [[_ H1] Hpx].
  apply Forall_cons in Hpx as [[_ H2] Hpx].
  apply Forall_cons in Hpx as [[_ H3] Hpx].
  cbn [encoded_pixels]. apply Forall_app. split; [|by apply IH].
  unfold encoded_group.
  repeat first
    [ apply Forall_nil_2
    | apply Forall_cons_2
    | split; [reflexivity|]
    | apply encode_bit_in_value_range, channel_byte; assumption
    | apply flag_value_range, channel_byte; assumption ].
Qed.

Lemma wf_image_pixels img :
  wf_image img → Forall (λ p : Pixel, 3 ≤ length p)%nat (data img).
Proof.
  intros (_ & Hb & Hpx). eapply Forall_impl; [exact Hpx|].
  intros p [Hlen _]. lia.
Qed.

(** [encode] on a well-formed image with room for the text. *)
Lemma encode_run σ image img text :
  σ !! image = Some img →
  wf_image img →
  text ≠ [] →
  (3 * length text ≤ length (data img))%nat →
  encode image text σ = (Ok (length σ), σ ++ [encoded_image_of img text]).
Proof.
  intros Himg Hwf Hne Hcap.
  pose proof (wf_image_pixels _ Hwf) as Hpx3.
  destruct Hwf as (Hsize & Hbands & Hpx).
  assert (0 < fst (size img))%nat as Hwidth.
  { destruct text; [done|]. simpl in Hcap. nia. }
  unfold encode. rewrite decide_False by done.
  rewrite bind_run. unfold validate_image_capacity.
  rewrite bind_run, (get_image_run _ _ _ Himg).
  rewrite decide_False by lia.
  rewrite ret_run. cbv beta iota.
  rewrite bind_run. unfold copy.
  rewrite bind_run, (get_image_run _ _ _ Himg). unfold alloc.
  assert ((σ ++ [img]) !! length σ = Some img) as Hcopy.
  { by rewrite lookup_app_r, Nat.sub_diag. }
  rewrite bind_run. unfold getdata.
  rewrite bind_run, (get_image_run _ _ _ Hcopy), ret_run.
  rewrite bind_run, (get_image_run _ _ _ Hcopy).
  unfold modify_pixels_for_encoding.
  assert (length (text_to_binary text) = length text) as Hnum.
  { unfold text_to_binary. by rewrite length_map. }
  rewrite encoding_loop_ok;
    [|apply text_to_binary_length|done|by rewrite Hnum].
  cbn [yielded raised]. rewrite bind_run.
  rewrite (write_pixels_run _ _ img _ 0 0 0); try done.
  - rewrite ret_run, encoded_pixels_length, Hnum by (by rewrite Hnum).
    f_equal. apply insert_last.
  - by eapply encoded_pixels_ok.
  - rewrite encoded_pixels_length, Hnum by (by rewrite Hnum). lia.
Qed.
End encoding.

(** ** Decoding any image *)

Section decoder.
Implicit Types (pixels rest : list Pixel) (acc : pystr).

Lemma lsb_bound v : (lsb v < 2)%N.
Proof. unfold lsb. pose proof (Z.mod_pos_bound v 2 eq_refl). lia. Qed.

Lemma extract_bit_digit v :
  extract_bit_from_value v = String (digit (lsb v)) "".
Proof.
  unfold extract_bit_from_value, lsb.
  pose proof (Z.mod_pos_bound v 2 eq_refl).
  case_decide as Hv.
  - by replace (v mod 2) with 1 by lia.
  - by replace (v mod 2) with 0 by lia.
Qed.

Lemma int2_digits_digit b s a :
  (b < 2)%N → int2_digits (String (digit b) s) a = int2_digits s (2 * a + b).
Proof.
  intros Hb. assert (b = 0 ∨ b = 1)%N as [-> | ->] by lia; done.
Qed.

Lemma binary_digit b : digit b = "0"%char ∨ digit b = "1"%char.
Proof. unfold digit. case_match; auto. Qed.

Lemma msb_first_byte (b0 b1 b2 b3 b4 b5 b6 b7 : N) :
  (b0 < 2 → b1 < 2 → b2 < 2 → b3 < 2 → b4 < 2 → b5 < 2 → b6 < 2 → b7 < 2 →
   msb_first [b0; b1; b2; b3; b4; b5; b6; b7] ≤ 255)%N.
Proof. unfold msb_first. cbn [fold_left]. lia. Qed.

(** Eight colour values make a string of eight binary digits, which
    [int] and [chr] accept. *)
Lemma binary_string_valid v0 v1 v2 v3 v4 v5 v6 v7 :
  let binary_string :=
    String.concat ""
      (extract_bit_from_value <$> [v0; v1; v2; v3; v4; v5; v6; v7]) in
  let n := msb_first (lsb <$> [v0; v1; v2; v3; v4; v5; v6; v7]) in
  String.length binary_string = 8%nat
  ∧ binary binary_string
  ∧ int2 binary_string = Some n
  ∧ (n ≤ 255)%N
  ∧ chr n = Some n.
Proof.
  intros binary_string n. subst binary_string n.
  cbn [fmap list_fmap]. rewrite !extract_bit_digit.
  change (String.concat _ _) with
    (String (digit (lsb v0)) (String (digit (lsb v1))
      (String (digit (lsb v2)) (String (digit (lsb v3))
        (String (digit (lsb v4)) (String (digit (lsb v5))
          (String (digit (lsb v6)) (String (digit (lsb v7)) "")))))))).
  pose proof (lsb_bound v0). pose proof (lsb_bound v1).
  pose proof (lsb_bound v2). pose proof (lsb_bound v3).
  pose proof (lsb_bound v4). pose proof (lsb_bound v5).
  pose proof (lsb_bound v6). pose proof (lsb_bound v7).
  assert (msb_first [lsb v0; lsb v1; lsb v2; lsb v3; lsb v4; lsb v5;
                     lsb v6; lsb v7] ≤ 255)%N as Hn.
  { by apply msb_first_byte. }
  split; [done|].
  split; [repeat (split; [apply binary_digit|]); done|].
  split; [|split; [done|apply chr_byte; lia]].
  rewrite int2_digits_int2 by done.
  by rewrite !int2_digits_digit.
Qed.

(** Lists by groups of three. *)
Lemma list_ind3 {A} (P : list A → Prop) :
  P [] → (∀ a, P [a]) → (∀ a b, P [a; b]) →
  (∀ a b c l, P l → P (a :: b :: c :: l)) →
  ∀ l, P l.
Proof.
  intros H0 H1 H2 H3.
  refine (fix go l :=
            match l with
            | [] => H0
            | [a] => H1 a
            | [a; b] => H2 a b
            | a :: b :: c :: l' => H3 a b c l' (go l')
            end).
Qed.

(** One turn of the loop on pixels of three channels or more. *)
Lemma decoding_loop_step (pixel1 pixel2 pixel3 : Pixel) rest acc :
  (3 ≤ length pixel1)%nat → (3 ≤ length pixel2)%nat →
  (3 ≤ length pixel3)%nat →
  decoding_loop (pixel1 :: pixel2 :: pixel3 :: rest) acc
  = if decide (group_flag pixel3 mod 2 ≠ 0)
    then Ok (acc ++ [group_char pixel1 pixel2 pixel3])
    else decoding_loop rest (acc ++ [group_char pixel1 pixel2 pixel3]).
Proof.
  intros (r1&g1&b1&rest1&->)%pixel_3_inv (r2&g2&b2&rest2&->)%pixel_3_inv
    (r3&g3&b3&rest3&->)%pixel_3_inv.
  destruct (binary_string_valid r1 g1 b1 r2 g2 b2 r3 g3) as (_&_&Hint&_&Hchr).
  cbn [fmap list_fmap] in Hint, Hchr.
  cbn [decoding_loop]. unfold group_char, group_flag, channel.
  change (take 3 (r1 :: g1 :: b1 :: rest1)) with [r1; g1; b1].
  change (take 3 (r2 :: g2 :: b2 :: rest2)) with [r2; g2; b2].
  change (take 3 (r3 :: g3 :: b3 :: rest3)) with [r3; g3; b3].
  cbn -[extract_bit_from_value int2 chr String.concat msb_first lsb].
  rewrite Hint. cbn [mbind option_bind]. by rewrite Hchr.
Qed.

(** The loop is the decoder of the specification. *)
Lemma decoding_loop_spec pixels acc :
  Forall (λ p : Pixel, 3 ≤ length p)%nat pixels →
  decoding_loop pixels acc
  = match spec_decode pixels with
    | Some text => Ok (acc ++ text)
    | None => Raise (SteganographyError UnexpectedEndOfImageData)
    end.
Proof.
  revert acc. induction pixels as [|?|??|pixel1 pixel2 pixel3 pixels IH]
    using list_ind3; intros acc Hpx; try done.
  apply Forall_cons in Hpx as [H1 Hpx].
  apply Forall_cons in Hpx as [H2 Hpx].
  apply Forall_cons in Hpx as [H3 Hpx].
  rewrite decoding_loop_step by done. cbn [spec_decode].
  case_decide; [done|].
  rewrite IH by done. destruct (spec_decode pixels); [|done].
  by rewrite <-(assoc_L (++)).
Qed.

Lemma spec_decode_no_flag pixels :
  no_termination_flag pixels → spec_decode pixels = None.
Proof.
  induction pixels as [|?|??|pixel1 pixel2 pixel3 pixels IH]
    using list_ind3; intros Hflag; try done.
  cbn [spec_decode]. rewrite decide_False.
  - rewrite IH; [done|]. intros i p Hp. apply (Hflag (S i) p).
    by replace (3 * S i + 2)%nat with (3 + (3 * i + 2))%nat by lia.
  - intros Hodd. apply Hodd. by apply (Hflag 0%nat).
Qed.

(** The handler of [ValueError] is never entered. *)
Lemma decoding_loop_valid pixels acc :
  decoding_loop pixels acc ≠ Raise (SteganographyError InvalidEncodedData).
Proof.
  revert acc. induction pixels as [|?|??|pixel1 pixel2 pixel3 pixels IH]
    using list_ind3; intros acc; try done.
  cbn [decoding_loop].
  generalize (take 3 pixel1 ++ take 3 pixel2 ++ take 3 pixel3).
  intros color_values.
  do 8 (destruct color_values as [|? color_values]; [done|]).
  match goal with
  | |- context [z :: z0 :: z1 :: z2 :: z3 :: z4 :: z5 :: z6 :: _] =>
      destruct (binary_string_valid z z0 z1 z2 z3 z4 z5 z6)
        as (_&_&Hint&_&Hchr)
  end.
  cbn [fmap list_fmap] in Hint, Hchr.
  cbn -[extract_bit_from_value int2 chr String.concat msb_first lsb].
  rewrite Hint. cbn [mbind option_bind]. rewrite Hchr.
  destruct color_values as [|flag color_values]; [done|].
  cbn -[msb_first lsb]. case_decide; [done|apply IH].
Qed.

Lemma decode_run (σ : list Image) image img :
  σ !! image = Some img →
  decode image σ = (decoding_loop (data img) [], σ).
Proof.
  intros Himg. unfold decode, getdata.
  by rewrite !bind_run, (get_image_run _ _ _ Himg).
Qed.
End decoder.

(** ** The codec *)

Section codec.
Implicit Types (σ : list Image) (img : Image) (image : nat) (text : pystr).

Lemma take_stored_pixels nbands (values : list Pixel) :
  Forall (pixel_ok 3) values →
  take 3 <$> (stored_pixel nbands <$> values) = values.
Proof.
  induction 1 as [|value values [Hlen _] _ IH]; [done|].
  rewrite !fmap_cons, IH. f_equal.
  unfold stored_pixel. by rewrite take_app_length'.
Qed.

(** Decoding what [encode] built gives the leading eight digits of every
    character. *)
Lemma encode_decode_leading8 σ image img text :
  σ !! image = Some img →
  wf_image img →
  text ≠ [] →
  (3 * length text ≤ length (data img))%nat →
  ∃ encoded_image σ',
    encode image text σ = (Ok encoded_image, σ')
    ∧ decode encoded_image σ' = (Ok (leading8 <$> text), σ').
Proof.
  intros Himg Hwf Hne Hcap.
  exists (length σ), (σ ++ [encoded_image_of img text]).
  split; [by apply encode_run|].
  rewrite (decode_run _ _ (encoded_image_of img text))
    by (by rewrite lookup_app_r, Nat.sub_diag).
  f_equal. cbn [encoded_image_of data].
  apply (decoding_loop_encoded text 0 (length text) (data img) _ _ []);
    try done.
  destruct Hwf as (_ & _ & Hpx).
  eapply take_stored_pixels, encoded_pixels_ok, Hpx.
Qed.

Lemma encode_too_small σ image img text :
  σ !! image = Some img →
  wf_image img →
  text ≠ [] →
  (length (data img) < 3 * length text)%nat →
  encode image text σ = (Raise (SteganographyError ImageTooSmall), σ).
Proof.
  intros Himg (Hsize & _) Hne Hcap.
  unfold encode. rewrite decide_False by done.
  rewrite bind_run. unfold validate_image_capacity.
  rewrite bind_run, (get_image_run _ _ _ Himg).
  by rewrite decide_True by lia.
Qed.
End codec.

(** ** The pixels of the encoded image *)

Section encoded_image.
Implicit Types (img : Image) (text : pystr).



Lemma encoded_image_length img text :
  (3 * length text ≤ length (data img))%nat →
  length (data (encoded_image_of img text)) = length (data img).
Proof.
  intros Hcap. cbn [encoded_image_of data].
  rewrite length_app, length_fmap, length_drop, encoded_pixels_length;
    unfold text_to_binary; rewrite length_map; lia.
Qed.


(** The pixel of place [r] in the group of the character of index [i]. *)
Lemma encoded_image_group img text i :
  (3 * length text ≤ length (data img))%nat →
  (i < length text)%nat →
  ∃ binary_char (pixel1 pixel2 pixel3 : Pixel),
    data img !! (3 * i)%nat = Some pixel1
    ∧ data img !! (3 * i + 1)%nat = Some pixel2
    ∧ data img !! (3 * i + 2)%nat = Some pixel3
    ∧ ∀ r, (r < 3)%nat →
        data (encoded_image_of img text) !! (3 * i + r)%nat
        = stored_pixel (bands img)
            <$> encoded_group binary_char
                  (bool_decide (S i = length text))
                  pixel1 pixel2 pixel3 !! r.
Proof.
  intros Hcap Hi.
  assert (length (text_to_binary text) = length text) as Hnum.
  { unfold text_to_binary. by rewrite length_map. }
  destruct (lookup_lt_is_Some_2 (text_to_binary text) i) as [bc Hbc];
    [by rewrite Hnum|].
  destruct (encoded_pixels_group _ 0 (length text) (data img) i bc Hbc)
    as (pixel1 & pixel2 & pixel3 & H1 & H2 & H3 & Hr); [by rewrite Hnum|].
  exists bc, pixel1, pixel2, pixel3. repeat split; try done.
  intros r Hlt. cbn [encoded_image_of data].
  rewrite lookup_app_l.
  - rewrite list_lookup_fmap, Hr by done. do 3 f_equal.
    apply bool_decide_ext. lia.
  - rewrite length_fmap, encoded_pixels_length; rewrite Hnum; lia.
Qed.
End encoded_image.

(** * The claims *)

Local Ltac wf_concrete :=
  repeat first
    [ apply Forall_nil_2 | apply Forall_cons_2 | split ];
  try reflexivity; try (unfold ord; cbn; lia).

(** C1. Round trip: for every non-empty text whose characters all have code
    points in [0,255] and every pixel sequence of byte pixels of three
    channels or more with [len(pixels) >= 3*len(text)], decoding the image
    that encoding built returns exactly the text. *)
Theorem encode_decode_roundtrip (σ : list Image) (image : nat) (img : Image)
    (text : pystr) :
  σ !! image = Some img →
  wf_image img →
  text ≠ [] →
  Forall (λ c, (ord c ≤ 255)%N) text →
  (3 * length text ≤ length (data img))%nat →
  ∃ encoded_image σ',
    encode image text σ = (Ok encoded_image, σ')
    ∧ decode encoded_image σ' = (Ok text, σ').
Proof.
  intros Himg Hwf Hne Hlatin Hcap.
  destruct (encode_decode_leading8 σ image img text)
    as (encoded_image & σ' & Henc & Hdec); try done.
  exists encoded_image, σ'. split; [done|].
  rewrite Hdec. do 2 f_equal.
  clear -Hlatin. induction Hlatin as [|c text Hc _ IH]; [done|].
  by rewrite fmap_cons, IH, (leading8_latin1 c).
Qed.

Lemma encode_decode_roundtrip_witness :
  ∃ encoded_image σ',
    encode 0%nat [72; 105]%N [rgb_image_2x3] = (Ok encoded_image, σ')
    ∧ decode encoded_image σ' = (Ok [72; 105]%N, σ').
Proof.
  apply (encode_decode_roundtrip [rgb_image_2x3] 0%nat rgb_image_2x3);
    [reflexivity| |done| |cbn; lia]; wf_concrete.
Defined.

(** C2. A character whose code point exceeds 255 must be rejected by encode
    with an error, and not be cut to 8 bits. The code breaks this: the text
    of the one character U+263A (code point 9786, fourteen binary digits,
    where the docstring of [text_to_binary] promises strings of 8 bits) is
    encoded without any error, only the first eight digits being written,
    and decoding gives the character of code point 152. *)
Lemma encode_accepts_wide_character :
  let σ' := [rgb_image;
             {| size := (3%nat, 1%nat); bands := 3;
                data := [[11; 20; 30]; [41; 51; 60]; [70; 80; 91]] |}] in
  encode 0%nat [9786%N] [rgb_image] = (Ok 1%nat, σ')
  ∧ decode 1%nat σ' = (Ok [152%N], σ')
  ∧ ¬ ∃ e σ'', encode 0%nat [9786%N] [rgb_image] = (Raise e, σ'').
Proof.
  assert (encode 0%nat [9786%N] [rgb_image]
          = (Ok 1%nat,
             [rgb_image;
              {| size := (3%nat, 1%nat); bands := 3;
                 data := [[11; 20; 30]; [41; 51; 60]; [70; 80; 91]] |}]))
    as Henc by (vm_compute; reflexivity).
  split; [exact Henc|]. split; [vm_compute; reflexivity|].
  intros (e & σ'' & Hraise). rewrite Henc in Hraise. discriminate.
Qed.

(** C3. Capacity boundary: on a non-empty text, encode succeeds if and only
    if [len(pixels) >= 3*len(text)] (so it succeeds at equality); with fewer
    pixels (so at [3*len(text) - 1]) it fails with the capacity error of
    [validate_image_capacity], and the heap is as it was: the check runs
    before the copy is made and before any pixel is written. *)
Theorem encode_capacity_boundary (σ : list Image) (image : nat) (img : Image)
    (text : pystr) :
  σ !! image = Some img →
  wf_image img →
  text ≠ [] →
  ((∃ encoded_image σ', encode image text σ = (Ok encoded_image, σ'))
   ↔ (3 * length text ≤ length (data img))%nat)
  ∧ (length (data img) = (3 * length text)%nat →
     ∃ encoded_image σ', encode image text σ = (Ok encoded_image, σ'))
  ∧ ((length (data img) < 3 * length text)%nat →
     encode image text σ = (Raise (SteganographyError ImageTooSmall), σ))
  ∧ (length (data img) = (3 * length text - 1)%nat →
     encode image text σ = (Raise (SteganographyError ImageTooSmall), σ)).
Proof.
  intros Himg Hwf Hne.
  assert (0 < length text)%nat by (destruct text; [done|simpl; lia]).
  assert (∀ n, (3 * length text ≤ n)%nat → n = length (data img) →
    ∃ encoded_image σ', encode image text σ = (Ok encoded_image, σ')) as Hok.
  { intros n Hn ->. eexists _, _. by apply encode_run. }
  repeat split.
  - intros (encoded_image & σ' & Henc).
    destruct (decide (3 * length text ≤ length (data img))%nat); [done|].
    rewrite (encode_too_small _ _ img) in Henc by (done || lia). done.
  - intros Hcap. by eapply Hok.
  - intros Heq. eapply Hok; [|done]. lia.
  - intros Hlt. by apply (encode_too_small _ _ img).
  - intros Heq. apply (encode_too_small _ _ img); try done. lia.
Qed.

Lemma encode_capacity_boundary_witness :
  (∃ encoded_image σ',
     encode 0%nat [65%N] [rgb_image] = (Ok encoded_image, σ'))
  ∧ encode 0%nat [65%N] [two_pixel_image]
    = (Raise (SteganographyError ImageTooSmall), [two_pixel_image]).
Proof.
  split.
  - apply (encode_capacity_boundary [rgb_image] 0%nat rgb_image [65%N]);
      [reflexivity| |done|reflexivity]; wf_concrete.
  - assert (wf_image two_pixel_image) as Hwf by wf_concrete.
    destruct (encode_capacity_boundary [two_pixel_image] 0%nat two_pixel_image
                [65%N] eq_refl Hwf) as (_ & _ & _ & Hfail); [done|].
    apply Hfail. reflexivity.
Defined.

(** C4. Encode never mutates its input and returns a sequence of the same
    length that differs from it only in the first three channels of the
    first [3*len(text)] pixels, the channels beyond the first three being
    kept. The code breaks the last part: the generator reads pixels of any
    number of channels but yields pixels of three, so on the image of four
    bands the fourth channel of the first pixel, 7 before encode, is not
    kept (the pixel written is [(10, 21, 30)], stored with 255 in the fourth
    band). *)
Lemma encode_drops_fourth_channel :
  let img' := {| size := (3%nat, 1%nat); bands := 4;
                 data := [[10; 21; 30; 255]; [40; 50; 60; 255];
                          [70; 81; 91; 255]] |} in
  encode 0%nat [65%N] [rgba_image] = (Ok 1%nat, [rgba_image; img'])
  ∧ data rgba_image !! 0%nat = Some [10; 20; 30; 7]
  ∧ data img' !! 0%nat = Some [10; 21; 30; 255]
  ∧ drop 3 [10; 21; 30; 255] ≠ drop 3 [10; 20; 30; 7]
  ∧ yielded (modify_pixels_for_encoding (data rgba_image) [65%N])
    = [[10; 21; 30]; [40; 50; 60]; [70; 81; 91]].
Proof. repeat split; try (vm_compute; reflexivity). discriminate. Qed.

(** C5. Termination flag: in the image a successful encode of a text of [n]
    characters returns, the ninth value of the group of the character of
    index [i] (the third channel of the pixel of index [3*i + 2]) is odd
    when the character is the last one, and even otherwise. *)
Theorem termination_flag_exact (σ : list Image) (image : nat) (img : Image)
    (text : pystr) :
  σ !! image = Some img →
  wf_image img →
  text ≠ [] →
  (3 * length text ≤ length (data img))%nat →
  ∃ img',
    encode image text σ = (Ok (length σ), σ ++ [img'])
    ∧ ∀ i, (i < length text)%nat →
        ∃ pixel3 : Pixel,
          data img' !! (3 * i + 2)%nat = Some pixel3
          ∧ (group_flag pixel3 mod 2 = 1 ↔ i = (length text - 1)%nat)
          ∧ (group_flag pixel3 mod 2 = 0 ↔ i ≠ (length text - 1)%nat).
Proof.
  intros Himg Hwf Hne Hcap. exists (encoded_image_of img text).
  split; [by apply encode_run|].
  intros i Hi.
  destruct (encoded_image_group img text i) as
    (bc & pixel1 & pixel2 & pixel3 & _ & _ & _ & Hr); [done..|].
  specialize (Hr 2%nat). cbn in Hr. eexists. split; [apply Hr; lia|].
  unfold group_flag, stored_pixel, channel. cbn [app lookup list_lookup].
  cbn [default from_option id]. rewrite flag_value_parity.
  case_bool_decide; split; split; intros; try done; try lia.
Qed.

Lemma termination_flag_exact_witness :
  ∃ img',
    encode 0%nat [72; 105]%N [rgb_image_2x3] = (Ok 1%nat, [rgb_image_2x3; img'])
    ∧ ∀ i, (i < length [72; 105]%N)%nat →
        ∃ pixel3 : Pixel,
          data img' !! (3 * i + 2)%nat = Some pixel3
          ∧ (group_flag pixel3 mod 2 = 1 ↔ i = (length [72; 105]%N - 1)%nat)
          ∧ (group_flag pixel3 mod 2 = 0 ↔ i ≠ (length [72; 105]%N - 1)%nat).
Proof.
  apply (termination_flag_exact [rgb_image_2x3] 0%nat rgb_image_2x3 [72; 105]%N);
    [reflexivity| |done|cbn; lia]; wf_concrete.
Defined.

(** C6. Truncated carrier: when the pixels run out before a group with an
    odd ninth value is read, decode fails with the error of the unexpected
    end of the image data and returns no text; so it does on fewer than
    three pixels and on no pixel at all. *)
Theorem decode_truncated (σ : list Image) (image : nat) (img : Image) :
  σ !! image = Some img →
  ((length (data img) < 3)%nat →
   decode image σ
   = (Raise (SteganographyError UnexpectedEndOfImageData), σ))
  ∧ (Forall (λ p : Pixel, 3 ≤ length p)%nat (data img) →
     no_termination_flag (data img) →
     decode image σ
     = (Raise (SteganographyError UnexpectedEndOfImageData), σ)).
Proof.
  intros Himg. rewrite (decode_run _ _ _ Himg). split.
  - intros Hlen. by destruct (data img) as [|? [|? [|? ?]]]; [..|simpl in Hlen; lia].
  - intros Hpx Hflag.
    by rewrite decoding_loop_spec, spec_decode_no_flag.
Qed.

(** The example of C6: its one complete group has an even ninth value. *)
Lemma unmarked_image_no_flag : no_termination_flag (data unmarked_image).
Proof.
  intros [|i] pixel3; cbn; [by intros [= <-]|].
  replace (i + S (i + S (i + 0)) + 2)%nat with (S (S (S (3 * i + 1)))) by lia.
  cbn. by destruct (3 * i + 1)%nat.
Qed.

Lemma decode_truncated_witness :
  decode 0%nat [unmarked_image]
  = (Raise (SteganographyError UnexpectedEndOfImageData), [unmarked_image]).
Proof.
  apply (proj2 (decode_truncated [unmarked_image] 0%nat unmarked_image eq_refl)).
  - wf_concrete.
  - apply unmarked_image_no_flag.
Defined.

(** C7. For every value [v] in [0,255] and every bit [b] among "0" and "1":
    [make_even] and [make_odd] are idempotent, the bit extracted from
    [encode_bit_in_value v b] is [b], and the results of [make_even] and
    [make_odd] lie in [0,255] and differ from [v] by at most 1. *)
Theorem bit_functions_exact (v : Z) (b : ascii) :
  0 ≤ v ≤ 255 →
  b = "0"%char ∨ b = "1"%char →
  make_even (make_even v) = make_even v
  ∧ make_odd (make_odd v) = make_odd v
  ∧ extract_bit_from_value (encode_bit_in_value v b) = String b ""
  ∧ (0 ≤ make_even v ≤ 255 ∧ Z.abs (make_even v - v) ≤ 1)
  ∧ (0 ≤ make_odd v ≤ 255 ∧ Z.abs (make_odd v - v) ≤ 1).
Proof.
  intros Hv Hb.
  split; [apply make_even_idempotent|].
  split; [apply make_odd_idempotent|].
  split; [by apply extract_encode_bit|].
  split; (split; [|auto using make_even_near, make_odd_near]).
  - by apply make_even_range.
  - by apply make_odd_range.
Qed.

Lemma bit_functions_exact_witness :
  make_even (make_even 255) = make_even 255
  ∧ make_odd (make_odd 255) = make_odd 255
  ∧ extract_bit_from_value (encode_bit_in_value 255 "0") = "0"%string
  ∧ (0 ≤ make_even 255 ≤ 255 ∧ Z.abs (make_even 255 - 255) ≤ 1)
  ∧ (0 ≤ make_odd 255 ≤ 255 ∧ Z.abs (make_odd 255 - 255) ≤ 1).
Proof. apply (bit_functions_exact 255 "0"); [lia | by left]. Defined.

(** C8. Decode is the decoder of the specification: it reads groups of three
    pixels, makes each character of the least significant bits of the first
    eight values of the group, most significant bit first, and stops at the
    first group whose ninth value is odd. So an image whose first group has
    the bits 0,1,0,0,0,0,0,1 and an odd ninth value decodes to "A" (code
    point 65), whatever pixels follow. *)
Theorem decode_reads_groups (σ : list Image) (image : nat) (img : Image) :
  σ !! image = Some img →
  (Forall (λ p : Pixel, 3 ≤ length p)%nat (data img) →
   decode image σ
   = (match spec_decode (data img) with
      | Some text => Ok text
      | None => Raise (SteganographyError UnexpectedEndOfImageData)
      end, σ))
  ∧ ∀ (pixel1 pixel2 pixel3 : Pixel) (rest : list Pixel),
      data img = pixel1 :: pixel2 :: pixel3 :: rest →
      lsb <$> (take 3 pixel1 ++ take 3 pixel2 ++ take 3 pixel3)
      = [0; 1; 0; 0; 0; 0; 0; 1; 1]%N →
      decode image σ = (Ok [65%N], σ).
Proof.
  intros Himg. rewrite (decode_run _ _ _ Himg). split.
  { intros Hpx. by rewrite decoding_loop_spec. }
  intros pixel1 pixel2 pixel3 rest -> Hbits.
  assert (3 ≤ length pixel1 ∧ 3 ≤ length pixel2 ∧ 3 ≤ length pixel3)%nat
    as (Hlen1 & Hlen2 & Hlen3).
  { apply (f_equal length) in Hbits.
    rewrite length_fmap, !length_app, !length_take in Hbits.
    cbn [length] in Hbits. lia. }
  rewrite decoding_loop_step by done.
  apply pixel_3_inv in Hlen1 as (r1&g1&b1&rest1&->).
  apply pixel_3_inv in Hlen2 as (r2&g2&b2&rest2&->).
  apply pixel_3_inv in Hlen3 as (r3&g3&b3&rest3&->).
  unfold group_char, group_flag, channel.
  change (take 3 (r1 :: g1 :: b1 :: rest1)) with [r1; g1; b1] in *.
  change (take 3 (r2 :: g2 :: b2 :: rest2)) with [r2; g2; b2] in *.
  change (take 3 (r3 :: g3 :: b3 :: rest3)) with [r3; g3; b3] in *.
  cbn [app take fmap list_fmap] in Hbits |- *.
  injection Hbits as -> -> -> -> -> -> -> -> Hflag.
  cbn [lookup list_lookup default from_option id].
  unfold lsb in Hflag. pose proof (Z.mod_pos_bound b3 2 eq_refl).
  rewrite decide_True by lia. done.
Qed.

Lemma decode_reads_groups_witness :
  decode 0%nat [image_A]
  = (match spec_decode (data image_A) with
     | Some text => Ok text
     | None => Raise (SteganographyError UnexpectedEndOfImageData)
     end, [image_A])
  ∧ decode 0%nat [image_A] = (Ok [65%N], [image_A]).
Proof.
  destruct (decode_reads_groups [image_A] 0%nat image_A eq_refl)
    as [Hspec HA].
  split; [apply Hspec; wf_concrete|].
  exact (HA [10; 21; 30] [40; 50; 60] [70; 81; 91] [[1; 1; 1]] eq_refl eq_refl).
Defined.

(** C9. Empty text: encode with the empty text fails with the error of the
    empty payload whatever the image, and the heap is as it was. The test of
    the text comes first: the error is the same at a handle that names no
    image at all, where every later step would fail otherwise. *)
Theorem encode_empty_text (σ : list Image) (image : nat) :
  encode image [] σ = (Raise (SteganographyError CannotEncodeEmptyText), σ).
Proof. unfold encode. by rewrite decide_True. Qed.

(** C10. In decode the construction of the character never fails: the
    binary string of a group has exactly eight characters, each a binary
    digit, [int] gives a number of [0,255] and [chr] accepts it; so decode
    never raises the error of the [ValueError] handler, whatever the
    image. *)
Theorem decode_value_error_unreachable (σ : list Image) (image : nat)
    (v0 v1 v2 v3 v4 v5 v6 v7 : Z) :
  (decode image σ).1 ≠ Raise (SteganographyError InvalidEncodedData)
  ∧ let binary_string :=
      String.concat ""
        (extract_bit_from_value <$> [v0; v1; v2; v3; v4; v5; v6; v7]) in
    String.length binary_string = 8%nat
    ∧ binary binary_string
    ∧ ∃ n, int2 binary_string = Some n ∧ (n ≤ 255)%N ∧ chr n = Some n.
Proof.
  split.
  - unfold decode, getdata, get_image. rewrite !bind_run.
    destruct (σ !! image) as [img|]; [|done].
    rewrite ret_run. cbn. apply decoding_loop_valid.
  - destruct (binary_string_valid v0 v1 v2 v3 v4 v5 v6 v7)
      as (Hlen & Hbin & Hint & Hn & Hchr).
    cbv zeta. eauto 10.
Qed.

(** * Further properties of the code *)

(** ** The bit functions keep the upper bits *)

(** X1. For a colour value of at most 255, [encode_bit_in_value] changes
    nothing but the least significant bit: the result is twice the half of
    the value plus the bit. So the seven upper bits of a byte are kept, a
    value whose last bit is already the bit is returned as it is, and the
    branch [value - 1] of [make_odd] is never taken. *)
Theorem encode_bit_keeps_upper_bits (v : Z) (b : ascii) :
  v ≤ 255 →
  b = "0"%char ∨ b = "1"%char →
  encode_bit_in_value v b = 2 * (v / 2) + (if Ascii.eqb b "0" then 0 else 1)
  ∧ encode_bit_in_value v b / 2 = v / 2
  ∧ (extract_bit_from_value v = String b "" → encode_bit_in_value v b = v).
Proof.
  intros Hv Hb.
  pose proof (Z.div_mod v 2) as Hdiv.
  pose proof (Z.mod_pos_bound v 2) as Hmod.
  assert (encode_bit_in_value v b
          = 2 * (v / 2) + (if Ascii.eqb b "0" then 0 else 1)) as Heq.
  { unfold encode_bit_in_value.
    destruct Hb as [-> | ->];
      [change (Ascii.eqb "0" "0") with true
      |change (Ascii.eqb "1" "0") with false];
      cbv iota; unfold make_even, make_odd; repeat case_decide; lia. }
  split; [exact Heq|]. split.
  - rewrite Heq. destruct (Ascii.eqb b "0").
    + rewrite Z.add_0_r, Z.mul_comm. by apply Z.div_mul.
    + rewrite Z.mul_comm. rewrite Z.div_add_l by done. change (1 / 2) with 0.
      lia.
  - unfold extract_bit_from_value. rewrite Heq.
    destruct Hb as [-> | ->];
      [change (Ascii.eqb "0" "0") with true
      |change (Ascii.eqb "1" "0") with false];
      cbv iota; case_decide; intros [=]; lia.
Qed.

Lemma encode_bit_keeps_upper_bits_witness :
  encode_bit_in_value 254 "1" = 2 * (254 / 2) + 1
  ∧ encode_bit_in_value 254 "1" / 2 = 254 / 2
  ∧ (extract_bit_from_value 254 = "1"%string → encode_bit_in_value 254 "1" = 254).
Proof. apply (encode_bit_keeps_upper_bits 254 "1"); [lia|by right]. Defined.

(** ** The binary strings of a text *)

Section text_to_binary_facts.
Implicit Types (c : N) (text : pystr).

Lemma bin_length_size c :
  c ≠ 0%N → N.of_nat (String.length (bin c)) = N.size c.
Proof.
  destruct c as [|p]; [done|]. intros _. simpl bin.
  by rewrite pos_digits_length, size_nat_N.
Qed.

Lemma bin_length_byte c : (c ≤ 255)%N ↔ (String.length (bin c) ≤ 8)%nat.
Proof.
  destruct (decide (c = 0%N)) as [->|Hc]; [simpl; split; lia|].
  pose proof (bin_length_size c Hc) as Hlen.
  pose proof (N.size_gt c) as Hgt. pose proof (N.size_le c) as Hle.
  split.
  - intros Hbyte. assert (N.size c ≤ 8)%N; [|lia].
    apply N.lt_succ_r, (N.pow_lt_mono_r_iff 2); [done|].
    change (2 ^ N.succ 8)%N with 512%N. lia.
  - intros Hsize. assert (2 ^ N.size c ≤ 2 ^ 8)%N as Hpow.
    { apply N.pow_le_mono_r; [done|lia]. }
    change (2 ^ 8)%N with 256%N in Hpow. lia.
Qed.

Lemma format_08b_length_exact c :
  String.length (format_08b c) = (String.length (bin c) `max` 8)%nat.
Proof.
  unfold format_08b. cbv zeta. rewrite string_length_app, zeros_length. lia.
Qed.

Lemma int2_format_08b c : int2 (format_08b c) = Some c.
Proof.
  rewrite int2_digits_int2.
  - unfold format_08b. cbv zeta.
    rewrite int2_digits_app, int2_digits_zeros. apply int2_digits_bin.
  - intros Hnil. pose proof (format_08b_length c) as Hlen.
    rewrite Hnil in Hlen. simpl in Hlen. lia.
Qed.

Lemma text_to_binary_inj text text' :
  text_to_binary text = text_to_binary text' → text = text'.
Proof.
  revert text'. induction text as [|c text IH]; intros [|c' text'];
    try done.
  intros [= Hc Htext]. f_equal; [|by apply IH].
  apply (f_equal int2) in Hc. unfold ord in Hc.
  rewrite !int2_format_08b in Hc. by injection Hc.
Qed.
End text_to_binary_facts.

(** X2. [text_to_binary] gives one string per character, made of binary
    digits only, which [int(s, 2)] reads back as the code point; the string
    has exactly 8 digits when the code point is at most 255 and more than 8
    when it is larger. So two texts with the same binary strings are the
    same text. *)
Theorem text_to_binary_exact (text : pystr) :
  length (text_to_binary text) = length text
  ∧ Forall2 (λ c s,
       binary s
       ∧ int2 s = Some (ord c)
       ∧ (String.length s = 8%nat ↔ (ord c ≤ 255)%N)
       ∧ ((8 < String.length s)%nat ↔ (255 < ord c)%N))
      text (text_to_binary text)
  ∧ ∀ text', text_to_binary text = text_to_binary text' → text = text'.
Proof.
  split; [unfold text_to_binary; by rewrite length_map|].
  split; [|apply text_to_binary_inj].
  induction text as [|c text IH]; [by constructor|].
  cbn [text_to_binary map]. constructor; [|exact IH]. unfold ord.
  pose proof (format_08b_length_exact c) as Hlen.
  pose proof (bin_length_byte c) as Hbyte.
  split; [apply format_08b_binary|].
  split; [apply int2_format_08b|].
  split; split; lia.
Qed.

(** ** The turns of the loop of [decode] *)

Section group_steps.
Implicit Types (color_values : list Z) (rest : list Pixel) (acc : pystr).

Lemma decoding_loop_unfold (pixel1 pixel2 pixel3 : Pixel) rest acc :
  decoding_loop (pixel1 :: pixel2 :: pixel3 :: rest) acc
  = match group_step (take 3 pixel1 ++ take 3 pixel2 ++ take 3 pixel3) with
    | Ok (c, stop) =>
        if stop then Ok (acc ++ [c]) else decoding_loop rest (acc ++ [c])
    | Raise e => Raise e
    end.
Proof.
  cbn [decoding_loop]. unfold group_step.
  destruct (mapM _ _) as [bits|]; [|done]. cbn [mbind result_bind].
  destruct (int2 _ ≫= chr) as [c|]; [|done].
  destruct (index _ 8) as [flag|]; [|done]. cbn [mbind result_bind].
  destruct (decide _) as [Hodd|Heven].
  - by rewrite bool_decide_eq_true_2.
  - by rewrite bool_decide_eq_false_2.
Qed.

(** A group of fewer than nine values raises [IndexError]. *)
Lemma group_step_short color_values :
  (length color_values < 9)%nat → group_step color_values = Raise IndexError.
Proof.
  intros Hlen. unfold group_step.
  do 8 (destruct color_values as [|? color_values]; [done|]).
  match goal with
  | |- context [z :: z0 :: z1 :: z2 :: z3 :: z4 :: z5 :: z6 :: _] =>
      destruct (binary_string_valid z z0 z1 z2 z3 z4 z5 z6)
        as (_&_&Hint&_&Hchr)
  end.
  cbn [fmap list_fmap] in Hint, Hchr.
  cbn -[extract_bit_from_value int2 chr String.concat msb_first lsb].
  rewrite Hint. cbn [mbind option_bind]. rewrite Hchr.
  destruct color_values; [done|]. simpl in Hlen. lia.
Qed.

(** A group of nine values or more gives the character of the least
    significant bits of the first eight, and stops on an odd ninth. *)
Lemma group_step_full v0 v1 v2 v3 v4 v5 v6 v7 v8 color_values :
  group_step (v0 :: v1 :: v2 :: v3 :: v4 :: v5 :: v6 :: v7 :: v8 :: color_values)
  = Ok (msb_first (lsb <$> [v0; v1; v2; v3; v4; v5; v6; v7]),
        bool_decide (lsb v8 ≠ 0%N)).
Proof.
  destruct (binary_string_valid v0 v1 v2 v3 v4 v5 v6 v7) as (_&_&Hint&_&Hchr).
  cbn [fmap list_fmap] in Hint, Hchr |- *. unfold group_step.
  cbn -[extract_bit_from_value int2 chr String.concat msb_first lsb].
  rewrite Hint. cbn [mbind option_bind]. rewrite Hchr.
  do 2 f_equal. apply bool_decide_ext. unfold lsb.
  pose proof (Z.mod_pos_bound v8 2 eq_refl). lia.
Qed.

(** The step reads nothing but the least significant bits. *)
Lemma group_step_lsb color_values color_values' :
  lsb <$> color_values = lsb <$> color_values' →
  group_step color_values = group_step color_values'.
Proof.
  intros Hlsb.
  assert (length color_values = length color_values') as Hlen.
  { apply (f_equal length) in Hlsb. by rewrite !length_fmap in Hlsb. }
  destruct (decide (length color_values < 9)%nat) as [Hshort|Hfull].
  - rewrite !group_step_short; [done|lia|done].
  - do 9 (destruct color_values as [|? color_values];
          [simpl in Hfull; lia|]).
    do 9 (destruct color_values' as [|? color_values'];
          [simpl in Hlen; lia|]).
    rewrite !group_step_full. cbn [fmap list_fmap] in Hlsb |- *.
    injection Hlsb as -> -> -> -> -> -> -> -> -> _. done.
Qed.
End group_steps.

(** ** The generator when the pixels run out *)

Section generator_exhausted.
Implicit Types (pixels : list Pixel).

Lemma encoding_loop_exhausted binary_chars char_index num_chars pixels :
  Forall (λ s, 8 ≤ String.length s)%nat binary_chars →
  Forall (λ p : Pixel, 3 ≤ length p)%nat pixels →
  (char_index + length binary_chars)%nat = num_chars →
  (length pixels < 3 * length binary_chars)%nat →
  raised (encoding_loop binary_chars char_index num_chars pixels)
  = Some (SteganographyError ImageTooSmallToEncode)
  ∧ length (yielded (encoding_loop binary_chars char_index num_chars pixels))
    = (3 * (length pixels / 3))%nat
  ∧ no_termination_flag
      (yielded (encoding_loop binary_chars char_index num_chars pixels)).
Proof.
  intros Hbc. revert char_index pixels.
  induction Hbc as [|bc binary_chars Hlen _ IH];
    intros char_index pixels Hpx Hnum Hcap; [simpl in Hcap; lia|].
  assert (∀ short : list Pixel, (length short < 3)%nat →
    length ([] : list Pixel) = (3 * (length short / 3))%nat
    ∧ no_termination_flag ([] : list Pixel)) as Hnone.
  { intros short Hshort. rewrite Nat.div_small by done. split; [done|].
    by intros i p. }
  destruct pixels as [|pixel1 [|pixel2 [|pixel3 pixels]]];
    [split; [done|]; apply Hnone; simpl; lia..|].
  apply Forall_cons in Hpx as [H1 Hpx].
  apply Forall_cons in Hpx as [H2 Hpx].
  apply Forall_cons in Hpx as [H3 Hpx].
  rewrite encoding_loop_group by done.
  simpl in Hcap, Hnum.
  destruct (IH (S char_index) pixels) as (Hraised & Hyield & Hflag);
    [done|lia|lia|].
  cbn [yield_first raised yielded]. split; [done|].
  rewrite bool_decide_eq_false_2 by lia. split.
  - rewrite length_app, Hyield. cbn [length encoded_group].
    change (S (S (S (length pixels)))) with (1 * 3 + length pixels)%nat.
    rewrite Nat.div_add_l by done. lia.
  - intros [|i] p.
    + cbn. intros [= <-]. unfold group_flag, channel. cbn.
      apply make_even_even.
    + replace (3 * S i + 2)%nat with (3 + (3 * i + 2))%nat by lia.
      cbn [encoded_group app]. intros Hp. by apply (Hflag i).
Qed.

(** A group of fewer than nine values makes the generator raise
    [IndexError] before it yields the group. *)
Lemma encoding_group_short binary_char char_index num_chars
    (color_values : list Z) :
  (8 ≤ String.length binary_char)%nat →
  (length color_values < 9)%nat →
  (color_values ← encode_bits (seq 0 BITS_PER_CHAR) binary_char color_values;
   set_flag char_index num_chars color_values)
  = Raise IndexError.
Proof.
  intros (c0&c1&c2&c3&c4&c5&c6&c7&s&->)%string_8_inv Hlen.
  do 8 (destruct color_values as [|? color_values]; [done|]).
  destruct color_values; [|simpl in Hlen; lia].
  cbn -[encode_bit_in_value]. unfold set_flag. done.
Qed.
End generator_exhausted.

(** X3. When the pixels run out before the text, the generator
    [modify_pixels_for_encoding] first yields the pixels of every group it
    could fill, three for each three pixels it was given, and then raises
    its "Image too small" error. None of the groups it yielded carries the
    odd termination flag, so what it yielded cannot be decoded: decoding
    those pixels ends in the error of the unexpected end of the data. *)
Theorem generator_runs_out (pixels : list Pixel) (text : pystr) :
  Forall (λ p : Pixel, 3 ≤ length p)%nat pixels →
  (length pixels < 3 * length text)%nat →
  raised (modify_pixels_for_encoding pixels text)
  = Some (SteganographyError ImageTooSmallToEncode)
  ∧ length (yielded (modify_pixels_for_encoding pixels text))
    = (3 * (length pixels / 3))%nat
  ∧ no_termination_flag (yielded (modify_pixels_for_encoding pixels text))
  ∧ decoding_loop (yielded (modify_pixels_for_encoding pixels text)) []
    = Raise (SteganographyError UnexpectedEndOfImageData).
Proof.
  intros Hpx Hcap. unfold modify_pixels_for_encoding. cbv zeta.
  assert (length (text_to_binary text) = length text) as Hnum.
  { unfold text_to_binary. by rewrite length_map. }
  destruct (encoding_loop_exhausted (text_to_binary text) 0
              (length (text_to_binary text)) pixels)
    as (Hraised & Hlen & Hflag);
    [apply text_to_binary_length|done|done|by rewrite Hnum|].
  repeat split; try done.
  rewrite decoding_loop_spec, spec_decode_no_flag; [done|done|].
  eapply Forall_impl; [apply encoding_loop_three_channels|].
  intros p Hp. cbn in Hp. lia.
Qed.

Lemma generator_runs_out_witness :
  raised (modify_pixels_for_encoding (data unmarked_image) [72; 105]%N)
  = Some (SteganographyError ImageTooSmallToEncode)
  ∧ length (yielded (modify_pixels_for_encoding (data unmarked_image) [72; 105]%N))
    = (3 * (length (data unmarked_image) / 3))%nat
  ∧ no_termination_flag
      (yielded (modify_pixels_for_encoding (data unmarked_image) [72; 105]%N))
  ∧ decoding_loop
      (yielded (modify_pixels_for_encoding (data unmarked_image) [72; 105]%N)) []
    = Raise (SteganographyError UnexpectedEndOfImageData).
Proof.
  apply (generator_runs_out (data unmarked_image) [72; 105]%N);
    [|cbn; lia].
  repeat first [apply Forall_nil_2 | apply Forall_cons_2]; cbn; lia.
Defined.

(** X4. An image of two bands is no error of the codec: its pixels are
    tuples of two values, three of them carry six values and not nine, and
    encode on a non-empty text that passes the capacity check raises
    [IndexError], not a [SteganographyError], after it made its copy and
    before it wrote any pixel of it; decode raises [IndexError] as well.
    (An image of one band is another matter: its pixels are numbers and
    not tuples, which the model of the pixels does not cover.) *)
Theorem short_pixels_index_error (σ : list Image) (image : nat) (img : Image)
    (text : pystr) :
  σ !! image = Some img →
  bands img = 2%nat →
  Forall (λ p : Pixel, length p = bands img) (data img) →
  length (data img) = (fst (size img) * snd (size img))%nat →
  text ≠ [] →
  (3 * length text ≤ length (data img))%nat →
  encode image text σ = (Raise IndexError, σ ++ [img])
  ∧ decode image σ = (Raise IndexError, σ).
Proof.
  intros Himg Hbands Hpx Hsize Hne Hcap.
  destruct (data img) as [|pixel1 [|pixel2 [|pixel3 rest]]] eqn:Hdata;
    [destruct text; [done|simpl in Hcap; lia]..|].
  assert (length (take 3 pixel1 ++ take 3 pixel2 ++ take 3 pixel3) < 9)%nat
    as Hshort.
  { rewrite Hbands in Hpx.
    apply Forall_cons in Hpx as [H1 Hpx].
    apply Forall_cons in Hpx as [H2 Hpx].
    apply Forall_cons in Hpx as [H3 Hpx].
    rewrite !length_app, !length_take. lia. }
  split.
  - unfold encode. rewrite decide_False by done.
    rewrite bind_run. unfold validate_image_capacity.
    rewrite bind_run, (get_image_run _ _ _ Himg).
    rewrite decide_False by lia.
    rewrite ret_run. cbv beta iota.
    rewrite bind_run. unfold copy.
    rewrite bind_run, (get_image_run _ _ _ Himg). unfold alloc.
    assert ((σ ++ [img]) !! length σ = Some img) as Hcopy.
    { by rewrite lookup_app_r, Nat.sub_diag. }
    rewrite bind_run. unfold getdata.
    rewrite bind_run, (get_image_run _ _ _ Hcopy), ret_run.
    rewrite bind_run, (get_image_run _ _ _ Hcopy).
    destruct text as [|c text]; [done|].
    unfold modify_pixels_for_encoding. rewrite Hdata.
    cbn [text_to_binary map encoding_loop].
    rewrite encoding_group_short by (done || apply format_08b_length).
    by cbn.
  - rewrite (decode_run _ _ _ Himg), Hdata, decoding_loop_unfold.
    by rewrite group_step_short.
Qed.

Lemma short_pixels_index_error_witness :
  encode 0%nat [65%N] [la_image] = (Raise IndexError, [la_image; la_image])
  ∧ decode 0%nat [la_image] = (Raise IndexError, [la_image]).
Proof.
  apply (short_pixels_index_error [la_image] 0%nat la_image [65%N]);
    [reflexivity|reflexivity| |reflexivity|done|cbn; lia].
  repeat first [apply Forall_nil_2 | apply Forall_cons_2]; reflexivity.
Defined.

(** ** What [decode] returns *)

Section decoded_text.
Implicit Types (pixels : list Pixel) (acc text : pystr).

Lemma group_step_char color_values c stop :
  group_step color_values = Ok (c, stop) → (c ≤ 255)%N.
Proof.
  destruct (decide (length color_values < 9)%nat) as [Hshort|Hfull].
  - by rewrite group_step_short.
  - do 9 (destruct color_values as [|? color_values];
          [simpl in Hfull; lia|]).
    rewrite group_step_full. intros [= <- _].
    apply msb_first_byte; apply lsb_bound.
Qed.

Lemma decoding_loop_text pixels acc text :
  decoding_loop pixels acc = Ok text →
  ∃ decoded,
    text = acc ++ decoded
    ∧ decoded ≠ []
    ∧ Forall (λ c, (c ≤ 255)%N) decoded
    ∧ (3 * length decoded ≤ length pixels)%nat.
Proof.
  revert acc. induction pixels as [|?|??|pixel1 pixel2 pixel3 pixels IH]
    using list_ind3; intros acc; try done.
  rewrite decoding_loop_unfold.
  destruct (group_step _) as [[c stop]|] eqn:Hstep; [|done].
  apply group_step_char in Hstep. destruct stop.
  - intros [= <-]. exists [c]. repeat split; try done.
    + by repeat constructor.
    + simpl. lia.
  - intros (decoded & -> & _ & Hbytes & Hlen)%IH.
    exists (c :: decoded). rewrite <-(assoc_L (++)).
    repeat split; try done.
    + by constructor.
    + simpl in *. lia.
Qed.
End decoded_text.

(** X5. Whenever decode returns a text, the text is not empty, every one of
    its characters has a code point of at most 255, and it has at most one
    character for every three pixels of the image; and decode leaves the
    heap as it was. *)
Theorem decode_returns_bytes (σ σ' : list Image) (image : nat) (img : Image)
    (text : pystr) :
  σ !! image = Some img →
  decode image σ = (Ok text, σ') →
  σ' = σ
  ∧ text ≠ []
  ∧ Forall (λ c, (c ≤ 255)%N) text
  ∧ (3 * length text ≤ length (data img))%nat.
Proof.
  intros Himg. rewrite (decode_run _ _ _ Himg). intros [= Hloop <-].
  apply decoding_loop_text in Hloop
    as (decoded & -> & Hne & Hbytes & Hlen).
  done.
Qed.

Lemma decode_returns_bytes_witness :
  [image_A] = [image_A]
  ∧ [65%N] ≠ []
  ∧ Forall (λ c, (c ≤ 255)%N) [65%N]
  ∧ (3 * length [65%N] ≤ length (data image_A))%nat.
Proof.
  apply (decode_returns_bytes [image_A] [image_A] 0%nat image_A [65%N]);
    reflexivity.
Defined.

(** ** Decode reads the least significant bits only *)

Section decode_lsb.
Implicit Types (pixels : list Pixel) (acc : pystr).

Lemma decoding_loop_lsb pixels pixels' acc :
  Forall2 (λ p q : Pixel, lsb <$> take 3 p = lsb <$> take 3 q) pixels pixels' →
  decoding_loop pixels acc = decoding_loop pixels' acc.
Proof.
  revert pixels' acc.
  induction pixels as [|p1|p1 p2|p1 p2 p3 pixels IH] using list_ind3;
    intros pixels' acc Hlsb.
  - by apply Forall2_nil_inv_l in Hlsb as ->.
  - apply Forall2_cons_inv_l in Hlsb as (q1 & k1 & _ & Hlsb & ->).
    by apply Forall2_nil_inv_l in Hlsb as ->.
  - apply Forall2_cons_inv_l in Hlsb as (q1 & k1 & _ & Hlsb & ->).
    apply Forall2_cons_inv_l in Hlsb as (q2 & k2 & _ & Hlsb & ->).
    by apply Forall2_nil_inv_l in Hlsb as ->.
  - apply Forall2_cons_inv_l in Hlsb as (q1 & k1 & H1 & Hlsb & ->).
    apply Forall2_cons_inv_l in Hlsb as (q2 & k2 & H2 & Hlsb & ->).
    apply Forall2_cons_inv_l in Hlsb as (q3 & k3 & H3 & Hlsb & ->).
    rewrite !decoding_loop_unfold.
    rewrite (group_step_lsb _ (take 3 q1 ++ take 3 q2 ++ take 3 q3))
      by (by rewrite !fmap_app, H1, H2, H3).
    destruct (group_step _) as [[c stop]|]; [|done].
    destruct stop; [done|]. by apply IH.
Qed.
End decode_lsb.

(** X6. Decode reads nothing of an image but the least significant bits of
    the first three channels of its pixels: two images with the same number
    of pixels whose pixels agree on those bits decode to the same result,
    text or error, whatever their other bits and their other channels. *)
Theorem decode_reads_lsb_only (σ σ' : list Image) (image image' : nat)
    (img img' : Image) :
  σ !! image = Some img →
  σ' !! image' = Some img' →
  Forall2 (λ p q : Pixel, lsb <$> take 3 p = lsb <$> take 3 q)
    (data img) (data img') →
  (decode image σ).1 = (decode image' σ').1.
Proof.
  intros Himg Himg' Hlsb.
  rewrite (decode_run _ _ _ Himg), (decode_run _ _ _ Himg'). cbn.
  by apply decoding_loop_lsb.
Qed.

Lemma decode_reads_lsb_only_witness :
  (decode 0%nat [image_A]).1 = (decode 0%nat [image_A_loud]).1.
Proof.
  apply (decode_reads_lsb_only [image_A] [image_A_loud] 0%nat 0%nat
           image_A image_A_loud); [reflexivity|reflexivity|].
  repeat first [apply Forall2_nil_2 | apply Forall2_cons_2]; reflexivity.
Defined.

(** ** Encoding an encoded image *)

Section encoding_again.
Implicit Types (img : Image) (text : pystr) (pixels rest : list Pixel).

Lemma stored_pixel_ok nbands (value : Pixel) :
  (3 ≤ nbands)%nat → pixel_ok 3 value →
  pixel_ok nbands (stored_pixel nbands value).
Proof.
  intros Hb [Hlen Hbytes]. unfold stored_pixel. split.
  - rewrite length_app, length_replicate. lia.
  - apply Forall_app. split; [done|].
    apply Forall_replicate. lia.
Qed.

(** The image [encode] builds is again an image the codec can be given. *)
Lemma encoded_image_wf img text :
  wf_image img →
  (3 * length text ≤ length (data img))%nat →
  wf_image (encoded_image_of img text).
Proof.
  intros Hwf Hcap. pose proof Hwf as (Hsize & Hbands & Hpx).
  split; [|split; [done|]].
  - by rewrite encoded_image_length.
  - cbn [encoded_image_of data bands]. apply Forall_app. split.
    + apply Forall_fmap.
      eapply Forall_impl; [by eapply encoded_pixels_ok|].
      intros value Hvalue. by apply stored_pixel_ok.
    + by apply Forall_drop.
Qed.

Lemma encode_bit_in_value_idempotent v bit :
  encode_bit_in_value (encode_bit_in_value v bit) bit
  = encode_bit_in_value v bit.
Proof.
  unfold encode_bit_in_value. destruct (Ascii.eqb bit "0");
    [apply make_even_idempotent|apply make_odd_idempotent].
Qed.

Lemma flag_value_idempotent is_last_char v :
  flag_value is_last_char (flag_value is_last_char v)
  = flag_value is_last_char v.
Proof.
  destruct is_last_char; [apply make_odd_idempotent|apply make_even_idempotent].
Qed.

Lemma encoded_pixels_idempotent nbands binary_chars char_index num_chars
    pixels rest :
  (3 * length binary_chars ≤ length pixels)%nat →
  encoded_pixels binary_chars char_index num_chars
    ((stored_pixel nbands
        <$> encoded_pixels binary_chars char_index num_chars pixels) ++ rest)
  = encoded_pixels binary_chars char_index num_chars pixels.
Proof.
  revert char_index pixels.
  induction binary_chars as [|bc binary_chars IH];
    intros char_index pixels Hcap; [done|].
  destruct pixels as [|pixel1 [|pixel2 [|pixel3 pixels]]];
    simpl in Hcap; try lia.
  cbn [encoded_pixels encoded_group app fmap list_fmap].
  rewrite IH by lia. f_equal; [|f_equal; [|f_equal]];
    unfold stored_pixel, channel; cbn [app lookup list_lookup];
    cbn [default from_option id];
    by rewrite ?encode_bit_in_value_idempotent, ?flag_value_idempotent.
Qed.

Lemma encoded_image_idempotent img text :
  (3 * length text ≤ length (data img))%nat →
  encoded_image_of (encoded_image_of img text) text
  = encoded_image_of img text.
Proof.
  intros Hcap. unfold encoded_image_of at 1. cbn [size bands data encoded_image_of].
  assert (length (text_to_binary text) = length text) as Hnum.
  { unfold text_to_binary. by rewrite length_map. }
  rewrite encoded_pixels_idempotent by (by rewrite Hnum).
  rewrite drop_app_length'; [done|].
  by rewrite length_fmap, encoded_pixels_length, Hnum by (by rewrite Hnum).
Qed.
End encoding_again.

(** X7. Encode keeps the carrier well formed: the image a successful encode
    returns has the size and the bands of its input, as many pixels as its
    size says, and in every pixel as many channels as bands, each a value
    of [0,255]. So it can be given to encode again. *)
Theorem encode_keeps_well_formed (σ : list Image) (image : nat) (img : Image)
    (text : pystr) :
  σ !! image = Some img →
  wf_image img →
  text ≠ [] →
  (3 * length text ≤ length (data img))%nat →
  ∃ encoded_image σ' img',
    encode image text σ = (Ok encoded_image, σ')
    ∧ σ' !! encoded_image = Some img'
    ∧ wf_image img'
    ∧ size img' = size img
    ∧ bands img' = bands img.
Proof.
  intros Himg Hwf Hne Hcap.
  exists (length σ), (σ ++ [encoded_image_of img text]),
    (encoded_image_of img text).
  split; [by apply encode_run|].
  split; [by rewrite lookup_app_r, Nat.sub_diag|].
  split; [by apply encoded_image_wf|done].
Qed.

Lemma encode_keeps_well_formed_witness :
  ∃ encoded_image σ' img',
    encode 0%nat [65%N] [rgba_image] = (Ok encoded_image, σ')
    ∧ σ' !! encoded_image = Some img'
    ∧ wf_image img'
    ∧ size img' = size rgba_image
    ∧ bands img' = bands rgba_image.
Proof.
  apply (encode_keeps_well_formed [rgba_image] 0%nat rgba_image [65%N]);
    [reflexivity| |done|cbn; lia]; wf_concrete.
Defined.

(** X8. Encoding a second text into an encoded image replaces the message:
    decode of the result returns the second text, also when it is shorter
    than the first and groups of the first text are left behind it. *)
Theorem encode_again_replaces (σ : list Image) (image : nat) (img : Image)
    (text1 text2 : pystr) :
  σ !! image = Some img →
  wf_image img →
  text1 ≠ [] → text2 ≠ [] →
  Forall (λ c, (ord c ≤ 255)%N) text2 →
  (3 * length text1 ≤ length (data img))%nat →
  (3 * length text2 ≤ length (data img))%nat →
  ∃ image1 σ1 image2 σ2,
    encode image text1 σ = (Ok image1, σ1)
    ∧ encode image1 text2 σ1 = (Ok image2, σ2)
    ∧ decode image2 σ2 = (Ok text2, σ2).
Proof.
  intros Himg Hwf Hne1 Hne2 Hlatin Hcap1 Hcap2.
  set (img1 := encoded_image_of img text1).
  assert ((σ ++ [img1]) !! length σ = Some img1) as Himg1
    by (by rewrite lookup_app_r, Nat.sub_diag).
  destruct (encode_decode_leading8 (σ ++ [img1]) (length σ) img1 text2)
    as (image2 & σ2 & Henc2 & Hdec2); try done.
  { by apply encoded_image_wf. }
  { subst img1. by rewrite encoded_image_length. }
  exists (length σ), (σ ++ [img1]), image2, σ2.
  split; [by apply encode_run|]. split; [done|].
  rewrite Hdec2. do 2 f_equal.
  clear -Hlatin. induction Hlatin as [|c text Hc _ IH]; [done|].
  by rewrite fmap_cons, IH, (leading8_latin1 c).
Qed.

Lemma encode_again_replaces_witness :
  ∃ image1 σ1 image2 σ2,
    encode 0%nat [72; 105]%N [rgb_image_2x3] = (Ok image1, σ1)
    ∧ encode image1 [65%N] σ1 = (Ok image2, σ2)
    ∧ decode image2 σ2 = (Ok [65%N], σ2).
Proof.
  apply (encode_again_replaces [rgb_image_2x3] 0%nat rgb_image_2x3
           [72; 105]%N [65%N]);
    [reflexivity| |done|done| |cbn; lia|cbn; lia]; wf_concrete.
Defined.

(** X9. Encode is idempotent on the pixels: encoding the text a successful
    encode wrote into the image it returned gives an image equal to that
    image. *)
Theorem encode_idempotent (σ : list Image) (image : nat) (img : Image)
    (text : pystr) :
  σ !! image = Some img →
  wf_image img →
  text ≠ [] →
  (3 * length text ≤ length (data img))%nat →
  ∃ img1,
    encode image text σ = (Ok (length σ), σ ++ [img1])
    ∧ encode (length σ) text (σ ++ [img1])
      = (Ok (S (length σ)), σ ++ [img1; img1]).
Proof.
  intros Himg Hwf Hne Hcap. exists (encoded_image_of img text).
  split; [by apply encode_run|].
  rewrite (encode_run _ _ (encoded_image_of img text)); try done.
  - rewrite encoded_image_idempotent by done.
    rewrite length_app, <-(assoc_L (++)). cbn [length app].
    do 2 f_equal. lia.
  - by rewrite lookup_app_r, Nat.sub_diag.
  - by apply encoded_image_wf.
  - by rewrite encoded_image_length.
Qed.

Lemma encode_idempotent_witness :
  ∃ img1,
    encode 0%nat [65%N] [rgba_image] = (Ok 1%nat, [rgba_image; img1])
    ∧ encode 1%nat [65%N] [rgba_image; img1]
      = (Ok 2%nat, [rgba_image; img1; img1]).
Proof.
  apply (encode_idempotent [rgba_image] 0%nat rgba_image [65%N]);
    [reflexivity| |done|cbn; lia]; wf_concrete.
Defined.

(** ** The command [encode] of the command line *)

Section command_line.
Implicit Types (text : pystr) (c : N).

Lemma lstrip_head text c rest : lstrip text = c :: rest → isspace c = false.
Proof.
  induction text as [|c' text IH]; [done|]. cbn [lstrip].
  destruct (isspace c') eqn:Hc'; [done|]. by intros [= <- _].
Qed.

Lemma lstrip_nil text :
  lstrip text = [] ↔ Forall (λ c, isspace c = true) text.
Proof.
  induction text as [|c text IH]; [by split; [constructor|]|].
  cbn [lstrip]. destruct (isspace c) eqn:Hc.
  - rewrite IH. split; [by constructor|]. by intros [_ ?]%Forall_cons.
  - split; [done|]. intros [Hc' _]%Forall_cons. congruence.
Qed.

(** [text.strip()] is empty exactly when the text is white space only. *)
Lemma strip_nil text :
  strip text = [] ↔ Forall (λ c, isspace c = true) text.
Proof.
  unfold strip. split.
  - intros Hnil. apply lstrip_nil.
    apply (f_equal reverse) in Hnil.
    rewrite reverse_involutive, reverse_nil in Hnil.
    apply lstrip_nil in Hnil. rewrite Forall_reverse in Hnil.
    destruct (lstrip text) as [|c rest] eqn:Hl; [done|].
    apply lstrip_head in Hl. apply Forall_cons in Hnil as [Hc _]. congruence.
  - intros Hspace%lstrip_nil. by rewrite Hspace.
Qed.
End command_line.

(** X10. The command refuses a text of white space only: when every
    character of the text is white space (the empty text too),
    [handle_encode] returns the exit code 1 without calling encode, so no
    image is copied or written, however large the image is. *)
Theorem handle_encode_blank_text (σ : list Image) (image : nat)
    (text : pystr) :
  Forall (λ c, isspace c = true) text →
  handle_encode image text σ = (1, σ).
Proof.
  intros Hspace%strip_nil. unfold handle_encode. by rewrite decide_True.
Qed.

Lemma handle_encode_blank_text_witness :
  handle_encode 0%nat [32; 9; 10; 160]%N [rgb_image_3x3] = (1, [rgb_image_3x3]).
Proof.
  apply (handle_encode_blank_text [rgb_image_3x3] 0%nat [32; 9; 10; 160]%N).
  repeat first [apply Forall_nil_2 | apply Forall_cons_2]; reflexivity.
Defined.

(** X11. When [handle_encode] returns the exit code 0 on a well-formed
    image, the text has a character that is no white space, the image had
    room for all of its characters, white space counted, and the text was
    encoded as it was given and not stripped: decoding the image it built
    returns the text with its leading and trailing white space. *)
Theorem handle_encode_success (σ σ' : list Image) (image : nat) (img : Image)
    (text : pystr) :
  σ !! image = Some img →
  wf_image img →
  Forall (λ c, (ord c ≤ 255)%N) text →
  handle_encode image text σ = (0, σ') →
  ¬ Forall (λ c, isspace c = true) text
  ∧ (3 * length text ≤ length (data img))%nat
  ∧ ∃ img', σ' = σ ++ [img']
            ∧ decode (length σ) σ' = (Ok text, σ').
Proof.
  intros Himg Hwf Hlatin. unfold handle_encode.
  case_decide as Hstrip; [done|].
  assert (text ≠ []) as Hne by (by intros ->).
  rewrite strip_nil in Hstrip.
  destruct (decide (3 * length text ≤ length (data img))%nat) as [Hcap|Hcap].
  - destruct (encode_decode_leading8 σ image img text)
      as (encoded_image & σ1 & Henc & Hdec); try done.
    pose proof (encode_run σ image img text Himg Hwf Hne Hcap) as Hrun.
    rewrite Hrun in Henc. injection Henc as <- <-.
    rewrite Hrun. intros [= <-].
    split; [done|]. split; [done|].
    eexists. split; [done|]. rewrite Hdec. do 2 f_equal.
    clear -Hlatin. induction Hlatin as [|c text Hc _ IH]; [done|].
    by rewrite fmap_cons, IH, (leading8_latin1 c).
  - by rewrite (encode_too_small σ image img text) by (done || lia).
Qed.

Lemma handle_encode_success_witness :
  ¬ Forall (λ c, isspace c = true) [32; 65; 32]%N
  ∧ (3 * length [32; 65; 32]%N ≤ length (data rgb_image_3x3))%nat
  ∧ ∃ img',
      (handle_encode 0%nat [32; 65; 32]%N [rgb_image_3x3]).2
      = [rgb_image_3x3] ++ [img']
      ∧ decode (length [rgb_image_3x3])
          (handle_encode 0%nat [32; 65; 32]%N [rgb_image_3x3]).2
        = (Ok [32; 65; 32]%N,
           (handle_encode 0%nat [32; 65; 32]%N [rgb_image_3x3]).2).
Proof.
  apply (handle_encode_success [rgb_image_3x3] _ 0%nat rgb_image_3x3);
    [reflexivity| | |reflexivity]; wf_concrete.
Defined.

(** ** The cursor of the loop of [encode] *)

(** X12. The cursor [(x, y)] of the loop of encode walks the image in
    row-major order and never leaves it: on an image with as many pixels as
    its size says, whatever its width, writing [n] pixels from [(0, 0)]
    raises nothing, puts the pixel of index [k] of what it was given at the
    index [k] of the image, and leaves the pixels from [n] on as they
    were. *)
Theorem write_pixels_row_major (σ : list Image) (image : nat) (img : Image)
    (modified_pixels : list Pixel) :
  σ !! image = Some img →
  length (data img) = (fst (size img) * snd (size img))%nat →
  (3 ≤ bands img)%nat →
  Forall (pixel_ok 3) modified_pixels →
  (length modified_pixels ≤ length (data img))%nat →
  ∃ img',
    write_pixels image (fst (size img)) modified_pixels 0 0 σ
    = (Ok (), <[image:=img']> σ)
    ∧ size img' = size img
    ∧ length (data img') = length (data img)
    ∧ (∀ k (pixel : Pixel),
         modified_pixels !! k = Some pixel →
         data img' !! k = Some (stored_pixel (bands img) pixel))
    ∧ (∀ k, (length modified_pixels ≤ k)%nat →
            data img' !! k = data img !! k).
Proof.
  intros Himg Hsize Hbands Hpx Hlen.
  destruct (decide (modified_pixels = [])) as [->|Hne].
  { exists img. cbn [write_pixels]. rewrite ret_run, list_insert_id by done.
    repeat split; try done. }
  assert (0 < fst (size img))%nat as Hwidth.
  { destruct modified_pixels; [done|]. simpl in Hlen. nia. }
  eexists. split.
  { by apply (write_pixels_run σ image img modified_pixels 0 0 0). }
  cbn [size data]. rewrite take_0, app_nil_l, Nat.add_0_l. split; [done|].
  split; [rewrite length_app, length_fmap, length_drop; lia|]. split.
  - intros k y Hy. rewrite lookup_app_l
      by (rewrite length_fmap; by eapply lookup_lt_Some).
    by rewrite list_lookup_fmap, Hy.
  - intros k Hk. rewrite lookup_app_r by (rewrite length_fmap; lia).
    rewrite length_fmap, lookup_drop. f_equal. lia.
Qed.

Lemma write_pixels_row_major_witness :
  ∃ img',
    write_pixels 0%nat (fst (size rgb_image_3x3))
      [[1; 1; 1]; [2; 2; 2]; [3; 3; 3]; [4; 4; 4]] 0 0 [rgb_image_3x3]
    = (Ok (), <[0%nat:=img']> [rgb_image_3x3])
    ∧ size img' = size rgb_image_3x3
    ∧ length (data img') = length (data rgb_image_3x3)
    ∧ (∀ k (pixel : Pixel),
         [[1; 1; 1]; [2; 2; 2]; [3; 3; 3]; [4; 4; 4]] !! k = Some pixel →
         data img' !! k = Some (stored_pixel (bands rgb_image_3x3) pixel))
    ∧ (∀ k, (length [[1; 1; 1]; [2; 2; 2]; [3; 3; 3]; [4; 4; 4]] ≤ k)%nat →
            data img' !! k = data rgb_image_3x3 !! k).
Proof.
  apply (write_pixels_row_major [rgb_image_3x3] 0%nat rgb_image_3x3);
    [reflexivity|reflexivity|cbn; lia| |cbn; lia]; wf_concrete.
Defined.

(** ** The message lives in the first pixels *)

Section message_prefix.
Implicit Types (pixels more : list Pixel) (acc text : pystr).

Lemma decoding_loop_app pixels more acc text :
  decoding_loop pixels acc = Ok text →
  decoding_loop (pixels ++ more) acc = Ok text.
Proof.
  revert acc. induction pixels as [|?|??|pixel1 pixel2 pixel3 pixels IH]
    using list_ind3; intros acc; try done.
  cbn [app]. rewrite !decoding_loop_unfold.
  destruct (group_step _) as [[c stop]|]; [|done].
  destruct stop; [done|]. apply IH.
Qed.
End message_prefix.

(** X13. The message lives in the first pixels: when decode returns a text
    for an image, it returns the same text for every image that starts with
    the pixels of that image, whatever pixels follow. *)
Theorem decode_ignores_later_pixels (σ σ' : list Image) (image image' : nat)
    (img img' : Image) (more : list Pixel) (text : pystr) :
  σ !! image = Some img →
  σ' !! image' = Some img' →
  data img' = data img ++ more →
  decode image σ = (Ok text, σ) →
  decode image' σ' = (Ok text, σ').
Proof.
  intros Himg Himg' Hdata.
  rewrite (decode_run _ _ _ Himg), (decode_run _ _ _ Himg'), Hdata.
  intros [= Hloop]. by rewrite (decoding_loop_app _ _ _ text).
Qed.

Lemma decode_ignores_later_pixels_witness :
  decode 0%nat [image_A] = (Ok [65%N], [image_A]).
Proof.
  apply (decode_ignores_later_pixels [image_A_head] [image_A] 0%nat 0%nat
           image_A_head image_A [[1; 1; 1]]); reflexivity.
Defined.

(** ** The frame of [encode] *)


